(** * plush-ai: operation log, geometry mapper and warp kernel

    A shallow embedding of
    - [OperationStackManager] (plush-ai-app/src/services/sessionStorage.ts,
      the part imported elsewhere as services/operationStack),
    - [ImageUtils.calculateAspectRatioFit]
      (plush-ai-app/src/utils/imageUtils.ts),
    - [ImageWarpView.aspectFitRect], the centre mapping of
      [ImageWarpView.exportJPEG] and the preview transform of
      [ImageWarpView.makePreviewCIImage]
      (ios/ImageWarp/ImageWarpModule.swift),
    - the fragment shader [shaders.bulge]
      (plush-ai-app/src/components/MagnifierToolGL.tsx),
    together with the properties the specification states about them. *)

From Stdlib Require Import String.
From Stdlib Require Import List Bool Arith ZArith Lia.
From Stdlib Require Import QArith Qround Qabs Qminmax.
From Stdlib Require Import Reals.
From Stdlib Require Lqa Lra.
From Stdlib Require Import Floats.
Import ListNotations.

(* ================================================================== *)
(** * Data model (types/index.ts) *)
(* ================================================================== *)

Module Types.

(** A JavaScript [number] carried inside an operation.  The log never
    computes with these fields, it only stores and moves them. *)
Definition number := Q.

Record Point := mkPoint { px : number; py : number }.

Record Stroke := mkStroke {
  points : list Point;
  size : number;
  strength : number;
  softness : number
}.

Inductive TransformKind := crop | rotate | flipH | flipV.
Inductive BackgroundMode := remove | blur | replace.

(** The [type] tag of an [Operation]. *)
Inductive OpType :=
| liquify | magnifier | twirl | bodyParam | faceParam
| inpaint | background | transform | color.

(** The tagged union [Operation].  [BodyParamKey] and [FaceParamKey] are
    unions of string literals, so a key is a string at run time; optional
    fields are options; the [any] payload of a transform is kept opaque. *)
Inductive Operation :=
| Liquify (strokes : list Stroke) (freezeMaskUri : option string)
| Magnifier (center : Point) (radius scale : number)
| Twirl (center : Point) (radius angle : number)
| BodyParam (key : string) (value : number)
| FaceParam (key : string) (value : number)
| Inpaint (polygon : list Point)
| Background (mode : BackgroundMode) (amount : option number)
             (replaceUri : option string)
| Transform (kind : TransformKind) (params : option string)
| Color (exposure saturation temperature tint : option number).

(** [op.type] *)
Definition op_type (op : Operation) : OpType :=
  match op with
  | Liquify _ _ => liquify
  | Magnifier _ _ _ => magnifier
  | Twirl _ _ _ => twirl
  | BodyParam _ _ => bodyParam
  | FaceParam _ _ => faceParam
  | Inpaint _ => inpaint
  | Background _ _ _ => background
  | Transform _ _ => transform
  | Color _ _ _ _ => color
  end.

(** [a === b] on type tags. *)
Definition type_eqb (a b : OpType) : bool :=
  match a, b with
  | liquify, liquify | magnifier, magnifier | twirl, twirl
  | bodyParam, bodyParam | faceParam, faceParam | inpaint, inpaint
  | background, background | transform, transform | color, color => true
  | _, _ => false
  end.

(** [op.key], present on the two parametric kinds only. *)
Definition op_key (op : Operation) : option string :=
  match op with
  | BodyParam k _ | FaceParam k _ => Some k
  | _ => None
  end.

(** [op.value], present on the two parametric kinds only. *)
Definition op_value (op : Operation) : option number :=
  match op with
  | BodyParam _ v | FaceParam _ v => Some v
  | _ => None
  end.

(** [op.strokes] of a liquify operation. *)
Definition op_strokes (op : Operation) : list Stroke :=
  match op with
  | Liquify s _ => s
  | _ => []
  end.

(** [op.freezeMaskUri] of a liquify operation. *)
Definition op_freezeMaskUri (op : Operation) : option string :=
  match op with
  | Liquify _ u => u
  | _ => None
  end.

End Types.

(* ================================================================== *)
(** * JavaScript arrays as lists *)
(* ================================================================== *)

Module JsArray.
Section Ops.
Variable A : Type.

(** [a.push(x)]: the new element goes to the end. *)
Definition push (a : list A) (x : A) : list A := a ++ [x].

(** [a.push(...xs)] *)
Definition push_all (a xs : list A) : list A := a ++ xs.

(** [a.shift()]: drops the first element; only the array is kept. *)
Definition shift (a : list A) : list A := tl a.

(** [a.pop()]: the removed last element ([None] is [undefined]) and the
    shortened array. *)
Definition pop (a : list A) : option A * list A :=
  match rev a with
  | [] => (None, [])
  | x :: r => (Some x, rev r)
  end.

(** [a.splice(start, deleteCount)]: the removed elements and the array that
    is left.  A negative [start] counts from the end, and both the start
    and the count are clamped to the array. *)
Definition splice (a : list A) (start deleteCount : Z) : list A * list A :=
  let len := Z.of_nat (length a) in
  let actualStart :=
    if (start <? 0)%Z then Z.max (len + start) 0 else Z.min start len in
  let actualDeleteCount := Z.min (Z.max deleteCount 0) (len - actualStart) in
  let i := Z.to_nat actualStart in
  let n := Z.to_nat actualDeleteCount in
  (firstn n (skipn i a), firstn i a ++ skipn (i + n) a).

End Ops.

Arguments push {A} a x.
Arguments push_all {A} a xs.
Arguments shift {A} a.
Arguments pop {A} a.
Arguments splice {A} a start deleteCount.

End JsArray.

(* ================================================================== *)
(** * The operation log (services/sessionStorage.ts) *)
(* ================================================================== *)

Module OperationStack.
Import Types JsArray.

(** The three private arrays of an [OperationStackManager].  The change
    listener is left out: [notifyChange] only hands a copy of [operations]
    to a callback and never writes to the manager. *)
Record OperationStackManager := mkManager {
  operations : list Operation;
  undoStack : list (list Operation);
  redoStack : list (list Operation)
}.

(** [private maxStackSize: number = 50] *)
Definition maxStackSize : nat := 50.

(** [constructor(initialOps = [])] *)
Definition new_manager (initialOps : list Operation) : OperationStackManager :=
  mkManager initialOps [] [].

(** [if (stack.length > this.maxStackSize) stack.shift()] *)
Definition bound (stack : list (list Operation)) : list (list Operation) :=
  if (maxStackSize <? length stack)%nat then shift stack else stack.

Definition addOperation (operation : Operation) (m : OperationStackManager)
  : OperationStackManager :=
  let operations' := push (operations m) operation in
  let undoStack' := push (undoStack m) [operation] in
  mkManager operations' (bound undoStack') [].

Definition addOperations (ops : list Operation) (m : OperationStackManager)
  : OperationStackManager :=
  let operations' := push_all (operations m) ops in
  let undoStack' := push (undoStack m) ops in
  mkManager operations' (bound undoStack') [].

Definition canUndo (m : OperationStackManager) : bool :=
  (0 <? length (undoStack m))%nat.

Definition canRedo (m : OperationStackManager) : bool :=
  (0 <? length (redoStack m))%nat.

(** [undo()]: the returned value ([None] is [null]) and the manager
    afterwards. *)
Definition undo (m : OperationStackManager)
  : option (list Operation) * OperationStackManager :=
  if negb (canUndo m) then (None, m)
  else
    match pop (undoStack m) with
    | (Some opsToUndo, undoStack') =>
        let undoCount := Z.of_nat (length opsToUndo) in
        let '(removedOps, operations') :=
          splice (operations m)
                 (Z.of_nat (length (operations m)) - undoCount) undoCount in
        let redoStack' := push (redoStack m) removedOps in
        (Some removedOps, mkManager operations' undoStack' (bound redoStack'))
    | (None, _) => (None, m) (* excluded by [canUndo] *)
    end.

(** [redo()] *)
Definition redo (m : OperationStackManager)
  : option (list Operation) * OperationStackManager :=
  if negb (canRedo m) then (None, m)
  else
    match pop (redoStack m) with
    | (Some opsToRedo, redoStack') =>
        let operations' := push_all (operations m) opsToRedo in
        let undoStack' := push (undoStack m) opsToRedo in
        (Some opsToRedo, mkManager operations' undoStack' redoStack')
    | (None, _) => (None, m) (* excluded by [canRedo] *)
    end.

(** [op => op.type === type] and [op => op.type !== type] *)
Definition has_type (type : OpType) (op : Operation) : bool :=
  type_eqb (op_type op) type.
Definition not_type (type : OpType) (op : Operation) : bool :=
  negb (type_eqb (op_type op) type).

Definition getOperationsByType (type : OpType) (m : OperationStackManager)
  : list Operation :=
  filter (has_type type) (operations m).

Definition replaceOperationsOfType (type : OpType) (operation : Operation)
    (m : OperationStackManager) : OperationStackManager :=
  let operations' := push (filter (not_type type) (operations m)) operation in
  mkManager operations' (push (undoStack m) [operation]) [].

Definition clearOperationsOfType (type : OpType) (m : OperationStackManager)
  : OperationStackManager :=
  let removedOps := filter (has_type type) (operations m) in
  if (0 <? length removedOps)%nat then
    mkManager (filter (not_type type) (operations m))
              (push (undoStack m) (map (fun op => op) removedOps)) []
  else m.

Definition resetTool (toolType : OpType) (m : OperationStackManager)
  : OperationStackManager :=
  let toolOps := filter (has_type toolType) (operations m) in
  if (0 <? length toolOps)%nat then
    mkManager (filter (not_type toolType) (operations m))
              (push (undoStack m) toolOps) []
  else m.

(** [clear()] *)
Definition clear (m : OperationStackManager) : OperationStackManager :=
  if (0 <? length (operations m))%nat then
    mkManager [] (push (undoStack m) (operations m)) []
  else m.

(** [reset()] *)
Definition reset (m : OperationStackManager) : OperationStackManager :=
  mkManager [] [] [].

(** ** [optimizeOperations] *)

(** A JavaScript [Map] keeps its keys in the order of their first
    insertion, so it is an association list here. *)
Section InsertionOrderedMap.
Variables (K V : Type) (eqb : K -> K -> bool).

(** [m.get(k)] *)
Fixpoint map_get (k : K) (m : list (K * V)) : option V :=
  match m with
  | [] => None
  | (k', v) :: rest => if eqb k' k then Some v else map_get k rest
  end.

(** [m.set(k, v)]: an existing key keeps its place and takes the new value,
    a new key goes to the end. *)
Fixpoint map_set (k : K) (v : V) (m : list (K * V)) : list (K * V) :=
  match m with
  | [] => [(k, v)]
  | (k', v') :: rest =>
      if eqb k' k then (k', v) :: rest else (k', v') :: map_set k v rest
  end.

(** [m.values()] *)
Definition map_values (m : list (K * V)) : list V := map snd m.

End InsertionOrderedMap.

Arguments map_get {K V} eqb k m.
Arguments map_set {K V} eqb k v m.
Arguments map_values {K V} m.

(** The first loop: [typeGroups.get(key)!.push(op)], after an empty group
    was set for a key not seen before. *)
Definition group_step (typeGroups : list (OpType * list Operation))
    (op : Operation) : list (OpType * list Operation) :=
  let key := op_type op in
  let typeGroups' :=
    match map_get type_eqb key typeGroups with
    | None => map_set type_eqb key [] typeGroups
    | Some _ => typeGroups
    end in
  match map_get type_eqb key typeGroups' with
  | Some ops => map_set type_eqb key (push ops op) typeGroups'
  | None => typeGroups' (* excluded: the key was just set *)
  end.

Definition typeGroups (ops : list Operation) : list (OpType * list Operation) :=
  fold_left group_step ops [].

(** [paramMap.set(op.key, op)] for the parametric operations of a group. *)
Definition param_step (paramMap : list (string * Operation)) (op : Operation)
  : list (string * Operation) :=
  match op_type op, op_key op with
  | bodyParam, Some k | faceParam, Some k => map_set String.eqb k op paramMap
  | _, _ => paramMap
  end.

Definition paramMap (ops : list Operation) : list (string * Operation) :=
  fold_left param_step ops [].

(** The body of the second loop: what one group contributes to
    [optimized].  A group is never empty ([ops[0]] exists). *)
Definition optimize_group (ops : list Operation) : list Operation :=
  match ops with
  | [] => []
  | [op] => [op]
  | op0 :: _ =>
      match op_type op0 with
      | liquify =>
          let liquifyOps := filter (has_type liquify) ops in
          let allStrokes := flat_map op_strokes liquifyOps in
          if (0 <? length allStrokes)%nat then
            match fst (pop liquifyOps) with
            | Some lastLiquifyOp =>
                [Liquify allStrokes (op_freezeMaskUri lastLiquifyOp)]
            | None => []
            end
          else []
      | bodyParam | faceParam => map_values (paramMap ops)
      | color =>
          match fst (pop ops) with
          | Some lastColorOp => [lastColorOp]
          | None => []
          end
      | _ => ops
      end
  end.

(** [optimizeOperations()]: only [this.operations] is assigned. *)
Definition optimizeOperations (m : OperationStackManager)
  : OperationStackManager :=
  let optimized := flat_map optimize_group (map_values (typeGroups (operations m))) in
  mkManager optimized (undoStack m) (redoStack m).

(** ** Reachable states *)

(** The states a fresh manager reaches through [addOperation] alone. *)
Inductive appended : OperationStackManager -> Prop :=
| appended_new (initialOps : list Operation) :
    appended (new_manager initialOps)
| appended_add (m : OperationStackManager) (op : Operation) :
    appended m -> appended (addOperation op m).

(** [addOperation] called on each element of [ops] in turn. *)
Definition append_all (ops : list Operation) (m : OperationStackManager)
  : OperationStackManager :=
  fold_left (fun m op => addOperation op m) ops m.

(** [op.type === type && op.key === key]: the parametric operations of
    one type that carry one key. *)
Definition is_param (type : OpType) (key : string) (op : Operation) : bool :=
  has_type type op &&
  match op_key op with
  | Some k => String.eqb k key
  | None => false
  end.

(** [a[a.length - 1]], [None] for an empty array. *)
Definition last_of (a : list Operation) : option Operation := fst (pop a).

(** An optional operation as the array of zero or one element. *)
Definition opt_list (o : option Operation) : list Operation :=
  match o with
  | Some op => [op]
  | None => []
  end.

(** The array a group holds: [None] when no operation has the type. *)
Definition group_of (t : OpType) (ops : list Operation)
  : option (list Operation) :=
  match filter (has_type t) ops with
  | [] => None
  | l => Some l
  end.

(** The two parametric types. *)
Definition is_param_type (ty : OpType) : Prop := ty = bodyParam \/ ty = faceParam.

(** [undo()] called [n] times, return values dropped. *)
Definition undo_times (n : nat) (m : OperationStackManager)
  : OperationStackManager :=
  Nat.iter n (fun m => snd (undo m)) m.

End OperationStack.

(* ================================================================== *)
(** * The geometry mapper (utils/imageUtils.ts, ImageWarpModule.swift) *)
(* ================================================================== *)

(** [CGFloat] arithmetic of the Swift functions is taken as exact
    arithmetic on rationals here: the statements below are about the
    formulas.  Module [GeometryF64] repeats the Swift functions on binary64
    floats, where they can be run on concrete inputs.  The TypeScript
    [calculateAspectRatioFit] rounds to whole pixels, so what it returns
    depends on the last bit of a product; it is modelled on binary64
    floats only, in module [ImageUtils]. *)
Module Geometry.
Local Open Scope Q_scope.

Record CGSize := mkSize { width : Q; height : Q }.
Record CGPoint := mkCGPoint { x : Q; y : Q }.
Record CGRect := mkRect { origin : CGPoint; size : CGSize }.

(** The integer nearest to a rational, a tie going up. *)
Definition Math_round (q : Q) : Z := Qfloor (q + (1 # 2)).

(** [ImageWarpView.aspectFitRect(imageSize:container:)] *)
Definition aspectFitRect (imageSize container : CGSize) : CGRect :=
  let rw := width container / width imageSize in
  let rh := height container / height imageSize in
  let scale := Qmin rw rh in
  let w := width imageSize * scale in
  let h := height imageSize * scale in
  let x := (width container - w) / 2 in
  let y := (height container - h) / 2 in
  mkRect (mkCGPoint x y) (mkSize w h).

(** The first step of [mtkView(_:drawable:)]: a centre given in view
    coordinates (origin top-left) becomes a Core Image point (origin
    bottom-left). *)
Definition draw_ciCenter (boundsHeight : Q) (centerPx : CGPoint) : CGPoint :=
  mkCGPoint (x centerPx) (boundsHeight - y centerPx).

(** The mapping of [exportJPEG] from the fitted view rectangle into the
    base image: subtract the fit origin, scale by extent over fit size. *)
Definition viewToImage (extent : CGSize) (fit : CGRect) (p : CGPoint) : CGPoint :=
  let sx := width extent / width (size fit) in
  let sy := height extent / height (size fit) in
  let cxInFit := x p - x (origin fit) in
  let cyInFit := y p - y (origin fit) in
  mkCGPoint (cxInFit * sx) (cyInFit * sy).

(** [ciCenter] of [exportJPEG], as the code writes it on [centerPx]. *)
Definition exportJPEG_ciCenter (extent : CGSize) (fit : CGRect)
    (boundsHeight : Q) (centerPx : CGPoint) : CGPoint :=
  let sx := width extent / width (size fit) in
  let sy := height extent / height (size fit) in
  let cxInFit := x centerPx - x (origin fit) in
  let cyInFit := (boundsHeight - y centerPx) - y (origin fit) in
  mkCGPoint (cxInFit * sx) (cyInFit * sy).

(** [radiusInImage] of [exportJPEG]. *)
Definition exportJPEG_radiusInImage (extent : CGSize) (fit : CGRect)
    (radiusPx : Q) : Q :=
  let sx := width extent / width (size fit) in
  let sy := height extent / height (size fit) in
  radiusPx * Qmax sx sy.

(** Where [makePreviewCIImage] puts the image point [q]: the image is
    scaled by fit size over extent, then translated by the fit origin; a
    target without area leaves the image as it is. *)
Definition imageToView (extent target : CGSize) (q : CGPoint) : CGPoint :=
  if Qlt_le_dec 0 (width target) then
    if Qlt_le_dec 0 (height target) then
      let fit := aspectFitRect extent target in
      let scaleX := width (size fit) / width extent in
      let scaleY := height (size fit) / height extent in
      mkCGPoint (x q * scaleX + x (origin fit)) (y q * scaleY + y (origin fit))
    else q
  else q.

(** Equality of points and rectangles up to the representation of a
    rational. *)
Definition point_eq (p q : CGPoint) : Prop := x p == x q /\ y p == y q.
Definition size_eq (s t : CGSize) : Prop :=
  width s == width t /\ height s == height t.
Definition rect_eq (r s : CGRect) : Prop :=
  point_eq (origin r) (origin s) /\ size_eq (size r) (size s).

(** Both coordinates within [eps]. *)
Definition point_within (eps : Q) (p q : CGPoint) : Prop :=
  Qabs (x p - x q) <= eps /\ Qabs (y p - y q) <= eps.

End Geometry.

(** The same Swift functions on binary64 floats ([CGFloat] on a 64-bit
    device). *)
Module GeometryF64.
Local Open Scope float_scope.

Record CGSize64 := mkSize { width : float; height : float }.
Record CGPoint64 := mkCGPoint { x : float; y : float }.
Record CGRect64 := mkRect { origin : CGPoint64; size : CGSize64 }.

(** Swift's [min(a, b)] is [b < a ? b : a]. *)
Definition fmin (a b : float) : float := if PrimFloat.ltb b a then b else a.

Definition aspectFitRect64 (imageSize container : CGSize64) : CGRect64 :=
  let rw := width container / width imageSize in
  let rh := height container / height imageSize in
  let scale := fmin rw rh in
  let w := width imageSize * scale in
  let h := height imageSize * scale in
  let x := (width container - w) / 2 in
  let y := (height container - h) / 2 in
  mkRect (mkCGPoint x y) (mkSize w h).

Definition viewToImage64 (extent : CGSize64) (fit : CGRect64) (p : CGPoint64) : CGPoint64 :=
  let sx := width extent / width (size fit) in
  let sy := height extent / height (size fit) in
  let cxInFit := x p - x (origin fit) in
  let cyInFit := y p - y (origin fit) in
  mkCGPoint (cxInFit * sx) (cyInFit * sy).

Definition imageToView64 (extent target : CGSize64) (q : CGPoint64) : CGPoint64 :=
  if PrimFloat.ltb 0 (width target) && PrimFloat.ltb 0 (height target) then
    let fit := aspectFitRect64 extent target in
    let scaleX := width (size fit) / width extent in
    let scaleY := height (size fit) / height extent in
    mkCGPoint (x q * scaleX + x (origin fit)) (y q * scaleY + y (origin fit))
  else q.

(** [|a - b| <= eps] *)
Definition within (eps a b : float) : bool := PrimFloat.leb (abs (a - b)) eps.

End GeometryF64.

(** [ImageUtils.calculateAspectRatioFit] on binary64 floats, the [number]
    of JavaScript: the division, [Math.min] and the two products are the
    IEEE operations, and [Math.round] rounds the binary64 product, not the
    exact one. *)
Module ImageUtils.
Local Open Scope float_scope.

(** The rational a finite binary64 number stands for; [None] for NaN and
    the infinities. *)
Definition Q_of_float (x : float) : option Q :=
  match Prim2SF x with
  | S754_zero _ => Some 0%Q
  | S754_finite s m e =>
      let v := (inject_Z (Zpos m) * Qpower 2 e)%Q in
      Some (if s then (- v)%Q else v)
  | S754_infinity _ => None
  | S754_nan => None
  end.

(** [Math.round(x)]: the integer nearest to [x], a tie going towards
    +Infinity.  The result is given as an integer, so [-0] and [+0] are
    both [Some 0]; NaN and the infinities, which [Math.round] returns as
    they are, are [None]. *)
Definition Math_round (x : float) : option Z :=
  option_map Geometry.Math_round (Q_of_float x).

(** [Math.min(a, b)]: NaN when either is NaN, and [-0] below [+0]. *)
Definition Math_min (a b : float) : float :=
  if is_nan a || is_nan b then nan
  else if PrimFloat.ltb a b then a
  else if PrimFloat.ltb b a then b
  else match classify a with
       | NZero => a
       | _ => b
       end.

(** The [{ width, height }] object [calculateAspectRatioFit] returns. *)
Record CanvasSize := mkCanvasSize {
  canvasWidth : option Z;
  canvasHeight : option Z
}.

(** [ImageUtils.calculateAspectRatioFit] *)
Definition calculateAspectRatioFit
    (srcWidth srcHeight maxWidth maxHeight : float) : CanvasSize :=
  let ratio := Math_min (maxWidth / srcWidth) (maxHeight / srcHeight) in
  mkCanvasSize (Math_round (srcWidth * ratio)) (Math_round (srcHeight * ratio)).

End ImageUtils.

(* ================================================================== *)
(** * The pinch/bulge fragment shader (components/MagnifierToolGL.tsx) *)
(* ================================================================== *)

(** GLSL [float] arithmetic is taken as arithmetic on the reals. *)
Module Shader.
Local Open Scope R_scope.

Record vec2 := mkVec2 { vx : R; vy : R }.

(** [a - b], [a * b] and [a / b] on [vec2] (componentwise), [v * s] with a
    scalar, and [length(v)]. *)
Definition vsub (a b : vec2) : vec2 := mkVec2 (vx a - vx b) (vy a - vy b).
Definition vadd (a b : vec2) : vec2 := mkVec2 (vx a + vx b) (vy a + vy b).
Definition vmul (a b : vec2) : vec2 := mkVec2 (vx a * vx b) (vy a * vy b).
Definition vdiv (a b : vec2) : vec2 := mkVec2 (vx a / vx b) (vy a / vy b).
Definition vscale (v : vec2) (s : R) : vec2 := mkVec2 (vx v * s) (vy v * s).
Definition vlength (v : vec2) : R := R_sqrt.sqrt (vx v * vx v + vy v * vy v).

(** The [amount] the shader computes from [percent] and [strength]. *)
Definition bulge_amount (strength percent : R) : R :=
  if Rlt_dec 0 strength then
    (* Bulge effect *)
    let amount := 1 - percent in
    let amount := amount * amount in
    amount * strength
  else
    (* Pinch effect *)
    let amount := percent in
    let amount := 1 - amount * amount in
    let amount := amount * Rabs strength in
    - amount.

(** [coord] at the end of [main], in pixels, for the pixel at [coord0 =
    uv * resolution]. *)
Definition bulge_coord (center : vec2) (radius strength : R) (coord0 : vec2)
  : vec2 :=
  let coord := coord0 in
  let toCenter := vsub center coord in
  let distance := vlength toCenter in
  if Rlt_dec distance radius then
    let percent := distance / radius in
    let amount := bulge_amount strength percent in
    vsub coord (vscale toCenter amount)
  else coord.

Section Main.
Variable vec4 : Type.

(** [main]: [gl_FragColor = texture2D(image, coord / resolution)].  The
    shader passes the coordinate on as it is; what a coordinate outside
    [0, 1] samples is left to the texture's wrap mode. *)
Definition bulge_main (image : vec2 -> vec4) (center : vec2)
    (radius strength : R) (resolution uv : vec2) : vec4 :=
  let coord := bulge_coord center radius strength (vmul uv resolution) in
  image (vdiv coord resolution).

End Main.

Arguments bulge_main {vec4} image center radius strength resolution uv.

(** The sample coordinate as the specification words it, before any
    clamping: [p - d * amount] with [d = p - center], [t = |d| / radius],
    [amount = strength * (1 - t)^2] for a positive strength and
    [- |strength| * (1 - t^2)] for a negative one. *)
Definition spec_sampleCoord (center : vec2) (radius strength : R) (p : vec2)
  : vec2 :=
  let d := vsub p center in
  if Rle_dec radius (vlength d) then p
  else
    let t := vlength d / radius in
    let amount :=
      if Rlt_dec 0 strength then strength * ((1 - t) * (1 - t))
      else - Rabs strength * (1 - t * t) in
    vsub p (vscale d amount).

End Shader.

(* ================================================================== *)
(** * Example states and inputs *)
(* ================================================================== *)

Module Examples.
Import Types OperationStack.

Definition eyeSize5 : Operation := FaceParam "eyeSize" 5.
Definition eyeSize8 : Operation := FaceParam "eyeSize" 8.
Definition magnifier1 : Operation :=
  Magnifier (mkPoint 100 100) 50 (3 # 10).
Definition color1 : Operation := Color (Some 1) None None None.

(** A fresh log after one append. *)
Definition one_append : OperationStackManager :=
  addOperation magnifier1 (new_manager []).

(** One append, then one undo: nothing left to undo, one group to redo. *)
Definition one_undone : OperationStackManager :=
  snd (undo one_append).

(** A log opened on two stored operations, with one more appended. *)
Definition reopened : OperationStackManager :=
  addOperation eyeSize8 (new_manager [color1; eyeSize5]).

(** A log with something in each of the three arrays. *)
Definition mixed : OperationStackManager :=
  snd (undo (append_all [color1; eyeSize5; magnifier1] (new_manager []))).

(** Three appends on a fresh log: two values of one face parameter with
    a magnifier edit between them. *)
Definition three_edits : OperationStackManager :=
  append_all [eyeSize5; magnifier1; eyeSize8] (new_manager []).

(** A log whose undo stack is full. *)
Definition full : OperationStackManager :=
  append_all (repeat color1 50) (new_manager []).

(** A 4:3 photograph and a 4:3 container; a tall phone screen. *)
Definition photo : Geometry.CGSize := Geometry.mkSize 4000 3000.
Definition container : Geometry.CGSize := Geometry.mkSize 800 600.
Definition screen : Geometry.CGSize := Geometry.mkSize 390 844.
Definition touch : Geometry.CGPoint := Geometry.mkCGPoint 100 (250 # 3).

(** 2^-20, the largest power of two below 1e-6. *)
Definition tolerance64 : float := 0x1p-20%float.

(** A 200 x 200 surface with the magnifier circle in its middle, and the
    same circle near the right edge. *)
Definition surface : Shader.vec2 := Shader.mkVec2 200 200.
Definition middle : Shader.vec2 := Shader.mkVec2 100 100.
Definition pixel : Shader.vec2 := Shader.mkVec2 140 100.
Definition near_edge : Shader.vec2 := Shader.mkVec2 190 100.
Definition edge_pixel : Shader.vec2 := Shader.mkVec2 198 100.

Definition photo64 : GeometryF64.CGSize64 := GeometryF64.mkSize 4032 3024.
Definition screen64 : GeometryF64.CGSize64 := GeometryF64.mkSize 390 844.
Definition touch64 : GeometryF64.CGPoint64 := GeometryF64.mkCGPoint 123.25 456.75.

(** A portrait photograph, for which the binary64 product of the width
    and the fit scale is not the width of the screen. *)
Definition portrait64 : GeometryF64.CGSize64 := GeometryF64.mkSize 3024 4032.

End Examples.

(* ================================================================== *)
(** * The operation log: the remaining methods *)
(* ================================================================== *)

Module OperationStackExt.
Import Types JsArray OperationStack.

(** [getLastOperationOfType(type)]: [ops[ops.length - 1]] of the filtered
    array, [None] for [undefined]. *)
Definition getLastOperationOfType (type : OpType) (m : OperationStackManager)
  : option Operation :=
  let ops := getOperationsByType type m in
  fst (pop ops).


(** The object [getState()] returns. *)
Record ManagerState := mkState {
  state_operations : list Operation;
  state_canUndo : bool;
  state_canRedo : bool;
  undoCount : nat;
  redoCount : nat
}.

Definition getState (m : OperationStackManager) : ManagerState :=
  mkState (operations m) (canUndo m) (canRedo m)
          (length (undoStack m)) (length (redoStack m)).

(** The states a fresh manager reaches through [addOperation],
    [addOperations], [undo] and [redo]. *)
Inductive edited : OperationStackManager -> Prop :=
| edited_new (initialOps : list Operation) :
    edited (new_manager initialOps)
| edited_add (m : OperationStackManager) (op : Operation) :
    edited m -> edited (addOperation op m)
| edited_add_group (m : OperationStackManager) (ops : list Operation) :
    edited m -> edited (addOperations ops m)
| edited_undo (m : OperationStackManager) :
    edited m -> edited (snd (undo m))
| edited_redo (m : OperationStackManager) :
    edited m -> edited (snd (redo m)).

(** A block: a non-empty run of operations of one type. *)
Definition is_block (b : OpType * list Operation) : Prop :=
  snd b <> [] /\ Forall (fun o => op_type o = fst b) (snd b).

(** The non-empty contributions of the groups, each under its type. *)
Definition out_blocks (G : list (OpType * list Operation))
  : list (OpType * list Operation) :=
  filter (fun b => (0 <? length (snd b))%nat)
         (map (fun e => (fst e, optimize_group (snd e))) G).

End OperationStackExt.

(* ================================================================== *)
(** * More example inputs *)
(* ================================================================== *)

Module MoreExamples.
Import Types OperationStack.

Definition stroke1 : Stroke := mkStroke [mkPoint 1 1; mkPoint 2 3] 50 (1 # 2) (4 # 5).
Definition stroke2 : Stroke := mkStroke [mkPoint 7 7] 30 (1 # 2) (4 # 5).

(** Two liquify operations with one stroke each, and one that only
    carries a freeze mask. *)
Definition stroke_a : Operation := Liquify [stroke1] (Some "mask1"%string).
Definition stroke_b : Operation := Liquify [stroke2] None.
Definition mask_only : Operation := Liquify [] (Some "mask2"%string).

(** A stored session index and an id that is in it. *)
Definition stored_ids : list string := ["a"%string; "b"%string; "c"%string].
Definition saved_id : string := "b"%string.

End MoreExamples.

(* ================================================================== *)
(** * The magnifier gesture (components/MagnifierToolGL.tsx) *)
(* ================================================================== *)

Module MagnifierGesture.
Local Open Scope Q_scope.

(** [const [radius, setRadius] = useState(80)]: the radius of the first
    render. *)
Definition initialRadius : Q := 80.

(** The bounds of the radius slider, [minimumValue] and [maximumValue]. *)
Definition minimumRadius : Q := 30.
Definition maximumRadius : Q := 150.

(** [onPanResponderMove]: the new circle position for a touch at
    [(locationX, locationY)].  The responder is created once, in
    [useRef(PanResponder.create({...})).current], so the [radius], [width]
    and [height] of the handler are those of the first render: the radius
    is [initialRadius] whatever the slider has set since, and [width] and
    [height] are the canvas size the component was mounted with.  That
    size comes out of [calculateAspectRatioFit], whole numbers of pixels,
    so [width - radius] is exact on binary64 floats, and [Math.max] and
    [Math.min] return one of their operands. *)
Definition onPanResponderMove (width height : Z) (locationX locationY : Q)
  : Geometry.CGPoint :=
  let radius := initialRadius in
  let newX := Qmax radius (Qmin (inject_Z width - radius) locationX) in
  let newY := Qmax radius (Qmin (inject_Z height - radius) locationY) in
  Geometry.mkCGPoint newX newY.

(** The overlay circle as it is drawn: [left = x - radius], [top = y -
    radius], [width = height = 2 * radius], with the [radius] of the
    current render (the slider's), inside a [width] x [height] canvas. *)
Definition circle_inside (width height : Z) (radius : Q) (c : Geometry.CGPoint)
  : Prop :=
  0 <= Geometry.x c - radius /\
  Geometry.x c - radius + 2 * radius <= inject_Z width /\
  0 <= Geometry.y c - radius /\
  Geometry.y c - radius + 2 * radius <= inject_Z height.

End MagnifierGesture.

(* ================================================================== *)
(** * The session index (services/sessionStorage.ts) *)
(* ================================================================== *)

(** The list part of [SessionStorageService.updateSessionsIndex].  Reading
    and writing the index file go through [FileSystem] and [JSON]; what is
    modelled is what happens to the parsed array of ids in between. *)
Module SessionIndex.
Import JsArray.

(** [export const HISTORY_LIMIT = 50] (constants) *)
Definition HISTORY_LIMIT : nat := 50.

(** [ids.indexOf(id)]: the first position of [id], [-1] when absent. *)
Fixpoint indexOf (id : string) (ids : list string) : Z :=
  match ids with
  | [] => (-1)%Z
  | x :: rest =>
      if String.eqb x id then 0%Z
      else
        let i := indexOf id rest in
        if (i <? 0)%Z then (-1)%Z else (i + 1)%Z
  end.

(** [updateSessionsIndex(session)] on the stored index ([None] when the
    index file does not exist): the array written back and
    [sessionsToDelete], the ids handed to [deleteSession]. *)
Definition updateSessionsIndex (id : string) (stored : option (list string))
  : list string * list string :=
  let sessionIds := match stored with Some ids => ids | None => [] end in
  let index := indexOf id sessionIds in
  let sessionIds :=
    if (-1 <? index)%Z then snd (splice sessionIds index 1) else sessionIds in
  let sessionIds := id :: sessionIds in
  if (HISTORY_LIMIT <? length sessionIds)%nat then
    (firstn HISTORY_LIMIT sessionIds, skipn HISTORY_LIMIT sessionIds)
  else (sessionIds, []).

(** [removeFromSessionsIndex(sessionId)] on the stored array. *)
Definition removeFromSessionsIndex (sessionId : string) (ids : list string)
  : list string :=
  filter (fun id => negb (String.eqb id sessionId)) ids.

End SessionIndex.

(* ================================================================== *)
(** * The undo and redo buttons of the first editor screen *)
(* ================================================================== *)

(** [handleUndo] and [handleRedo] of the editor screen that keeps its own
    redo stack in component state (utils/imageUtils.ts, second part).  A
    handler reads the state of the current render and its [set...] calls
    give the state of the next one. *)
Module EditorScreen.
Import Types JsArray.

Record EditorState := mkEditor {
  session_ops : option (list Operation);   (* [session?.ops] *)
  redoStack : list (list Operation);
  canUndo : bool;
  canRedo : bool
}.

(** The state [initializeEditor] sets for a session with [ops]. *)
Definition initialized (ops : list Operation) : EditorState :=
  mkEditor (Some ops) [] (0 <? length ops)%nat false.

Definition handleUndo (st : EditorState) : EditorState :=
  match session_ops st with
  | None => st
  | Some ops =>
      if (length ops =? 0)%nat then st
      else
        match pop ops with
        | (Some lastOp, newOps) =>
            mkEditor (Some newOps) (redoStack st ++ [[lastOp]])
                     (0 <? length newOps)%nat true
        | (None, _) => st
        end
  end.

Definition handleRedo (st : EditorState) : EditorState :=
  if (length (redoStack st) =? 0)%nat then st
  else
    match session_ops st with
    | None => st
    | Some ops =>
        match pop (redoStack st) with
        | (Some opsToRedo, newRedoStack) =>
            let newOps := ops ++ opsToRedo in
            mkEditor (Some newOps) newRedoStack true
                     (0 <? length newRedoStack)%nat
        | (None, _) => st
        end
    end.

(** The states the two buttons reach from an initialized editor. *)
Inductive pressed (ops0 : list Operation) : EditorState -> Prop :=
| pressed_init : pressed ops0 (initialized ops0)
| pressed_undo st : pressed ops0 st -> pressed ops0 (handleUndo st)
| pressed_redo st : pressed ops0 st -> pressed ops0 (handleRedo st).

(** What the buttons keep true. *)
Definition in_sync (ops0 : list Operation) (st : EditorState) : Prop :=
  exists ops,
    session_ops st = Some ops /\
    ops ++ concat (rev (redoStack st)) = ops0 /\
    canUndo st = (0 <? length ops)%nat /\
    canRedo st = (0 <? length (redoStack st))%nat /\
    Forall (fun g => length g = 1%nat) (redoStack st).

End EditorScreen.

(* ================================================================== *)
(** * Regions of interest and confidences (MLDetectionService) *)
(* ================================================================== *)

(** [validateDetectionConfidence] and [generateROIsFromDetections]
    (services/sessionStorage.ts, third part), on exact rationals. *)
Module Detection.
Import Types.
Local Open Scope Q_scope.

(** The fields of [PosePoints] that the two functions read. *)
Record PosePoints := mkPose {
  leftShoulder : option Point;
  rightShoulder : option Point;
  leftHip : option Point;
  rightHip : option Point
}.

Record FaceLandmarks := mkLandmarks {
  leftEye : option (list Point);
  rightEye : option (list Point);
  nose : option (list Point);
  mouth : option (list Point);
  jawline : option (list Point);
  leftEyebrow : option (list Point);
  rightEyebrow : option (list Point)
}.

Record DetectionConfidences := mkConfidences {
  conf_face : option number;
  conf_pose : option number;
  conf_segmentation : option number
}.

Record Detections := mkDetections {
  landmarks : option FaceLandmarks;
  pose : option PosePoints;
  confidences : option DetectionConfidences
}.

(** The keys of [ERROR_MESSAGES] that can be pushed as warnings. *)
Inductive Warning := lowConfidence | noPoseDetected | noFaceDetected.

(** [Object.keys(landmarks).length]: the number of fields that are set. *)
Definition key_count (lm : FaceLandmarks) : nat :=
  let set (f : option (list Point)) : nat :=
    match f with Some _ => 1%nat | None => 0%nat end in
  (set (leftEye lm) + set (rightEye lm) + set (nose lm) + set (mouth lm)
   + set (jawline lm) + set (leftEyebrow lm) + set (rightEyebrow lm))%nat.

(** [c && c < limit] for an optional number: [undefined], 0 and a value at
    or above the limit all make the condition fail. *)
Definition below (c : option number) (limit : Q) : bool :=
  match c with
  | Some v => negb (Qeq_bool v 0) && negb (Qle_bool limit v)
  | None => false
  end.

Record Validation := mkValidation { isValid : bool; warnings : list Warning }.

Definition validateDetectionConfidence (d : Detections) : Validation :=
  let face := match confidences d with Some c => conf_face c | None => None end in
  let pose := match confidences d with Some c => conf_pose c | None => None end in
  let '(warnings, isValid) :=
    if below face (7 # 10) then ([lowConfidence], false) else ([], true) in
  let warnings :=
    if below pose (6 # 10) then warnings ++ [noPoseDetected] else warnings in
  let no_landmarks :=
    match landmarks d with
    | None => true
    | Some lm => (key_count lm =? 0)%nat
    end in
  if no_landmarks then mkValidation false (warnings ++ [noFaceDetected])
  else mkValidation isValid warnings.

Record ROI := mkROI { roi_x : Q; roi_y : Q; roi_width : Q; roi_height : Q }.

Record ROIs := mkROIs {
  waistTop : option ROI;
  waistMid : option ROI;
  belly : option ROI;
  hips : option ROI;
  face : option ROI
}.

(** [Math.min(...xs)] and [Math.max(...xs)] of a non-empty list, given as
    its head and tail. *)
Definition Math_min (v : Q) (vs : list Q) : Q := fold_left Qmin vs v.
Definition Math_max (v : Q) (vs : list Q) : Q := fold_left Qmax vs v.

Definition generateROIsFromDetections (d : Detections) : ROIs :=
  let shoulders :=
    match pose d with
    | Some p =>
        match leftShoulder p, rightShoulder p with
        | Some l, Some r =>
            let shoulderWidth := Qabs (px r - px l) in
            let centerX := (px l + px r) / 2 in
            Some (mkROI (centerX - shoulderWidth * (6 # 10)) (py l + 50)
                        (shoulderWidth * (12 # 10)) 80)
        | _, _ => None
        end
    | None => None
    end in
  let hip (f : Q -> Q -> Q -> ROI) : option ROI :=
    match pose d with
    | Some p =>
        match leftHip p, rightHip p with
        | Some l, Some r =>
            let hipWidth := Qabs (px r - px l) in
            let centerX := (px l + px r) / 2 in
            Some (f hipWidth centerX (py l))
        | _, _ => None
        end
    | None => None
    end in
  let face :=
    match landmarks d with
    | Some lm =>
        match jawline lm with
        | Some (p :: ps) =>
            let minX := Math_min (px p) (map px ps) in
            let maxX := Math_max (px p) (map px ps) in
            let minY := Math_min (py p) (map py ps) in
            let maxY := Math_max (py p) (map py ps) in
            Some (mkROI minX minY (maxX - minX) (maxY - minY))
        | _ => None
        end
    | None => None
    end in
  mkROIs shoulders
    (hip (fun hipWidth centerX y =>
            mkROI (centerX - hipWidth * (5 # 10)) (y - 40) hipWidth 60))
    (hip (fun hipWidth centerX y =>
            mkROI (centerX - hipWidth * (4 # 10)) (y + 20)
                  (hipWidth * (8 # 10)) 60))
    (hip (fun hipWidth centerX y =>
            mkROI (centerX - hipWidth * (7 # 10)) (y - 20)
                  (hipWidth * (14 # 10)) 80))
    face.

(** The face confidence does not trigger the low-confidence warning:
    it is unset, zero, or at least 0.7. *)
Definition face_passes (d : Detections) : Prop :=
  match confidences d with
  | Some c =>
      match conf_face c with
      | Some v => v == 0 \/ 7 # 10 <= v
      | None => True
      end
  | None => True
  end.

End Detection.

(* ================================================================== *)
(** * The type of an image file (utils/imageUtils.ts) *)
(* ================================================================== *)

(** [ImageUtils.getImageType].  A string is its list of characters; only
    the letters A to Z are changed by [toLowerCase], which is what the
    comparison with the six extensions below can observe. *)
Module ImageType.
Import Ascii.
Local Open Scope string_scope.

Inductive ImageKind := jpeg | png | heic | unknown.

(** [s.split(sep)] for a one-character separator: never empty. *)
Fixpoint split (sep : ascii) (s : string) : list string :=
  match s with
  | EmptyString => [EmptyString]
  | String c rest =>
      if Ascii.eqb c sep then EmptyString :: split sep rest
      else
        match split sep rest with
        | seg :: segs => String c seg :: segs
        | [] => [String c EmptyString]
        end
  end.

Definition toLowerAscii (c : ascii) : ascii :=
  let n := nat_of_ascii c in
  if ((65 <=? n) && (n <=? 90))%nat then ascii_of_nat (n + 32) else c.

Fixpoint toLowerCase (s : string) : string :=
  match s with
  | EmptyString => EmptyString
  | String c rest => String (toLowerAscii c) (toLowerCase rest)
  end.

(** The [switch] on the extension. *)
Definition kind_of (extension : string) : ImageKind :=
  if String.eqb extension "jpg" then jpeg
  else if String.eqb extension "jpeg" then jpeg
  else if String.eqb extension "png" then png
  else if String.eqb extension "heic" then heic
  else if String.eqb extension "heif" then heic
  else unknown.

Definition getImageType (uri : string) : ImageKind :=
  match fst (JsArray.pop (split "." uri)) with
  | Some last => kind_of (toLowerCase last)
  | None => unknown
  end.

(** No ['.'] in the string. *)
Fixpoint dotless (s : string) : bool :=
  match s with
  | EmptyString => true
  | String c rest => negb (Ascii.eqb c ".") && dotless rest
  end.

End ImageType.

Module DetectionExamples.
Import Types.

(** What the stubbed pose detector returns, a jawline of three points,
    and the bounding box of that jawline. *)
Definition stub_pose : Detection.PosePoints :=
  Detection.mkPose (Some (mkPoint 100 200)) (Some (mkPoint 300 200))
                   (Some (mkPoint 100 400)) (Some (mkPoint 300 400)).
Definition jaw3 : list Point := [mkPoint 10 40; mkPoint 30 90; mkPoint 55 35].
Definition detected : Detection.Detections :=
  Detection.mkDetections
    (Some (Detection.mkLandmarks None None None None (Some jaw3) None None))
    (Some stub_pose)
    (Some (Detection.mkConfidences (Some (85 # 100)) (Some (8 # 10)) None)).
Definition face_box : Detection.ROI :=
  Detection.mkROI (Qmin (Qmin 10 30) 55) (Qmin (Qmin 40 90) 35)
    (Qmax (Qmax 10 30) 55 - Qmin (Qmin 10 30) 55)
    (Qmax (Qmax 40 90) 35 - Qmin (Qmin 40 90) 35).

End DetectionExamples.

(* ================================================================== *)
(** * Facts about the data model and the array primitives *)
(* ================================================================== *)

Module TypesFacts.
Import Types.

Lemma type_eqb_spec (a b : OpType) : reflect (a = b) (type_eqb a b).
Proof. destruct a, b; constructor; congruence. Qed.

Lemma type_eqb_refl (a : OpType) : type_eqb a a = true.
Proof. now destruct a. Qed.

Lemma type_eqb_eq (a b : OpType) : type_eqb a b = true <-> a = b.
Proof. destruct (type_eqb_spec a b); split; congruence. Qed.

Lemma type_eqb_neq (a b : OpType) : type_eqb a b = false <-> a <> b.
Proof. destruct (type_eqb_spec a b); split; congruence. Qed.

End TypesFacts.

Module JsArrayFacts.
Import JsArray.
Section Facts.
Variable A : Type.
Implicit Types a b r : list A.

Lemma pop_push (a : list A) (x : A) : pop (push a x) = (Some x, a).
Proof.
  unfold pop, push. rewrite rev_app_distr. simpl. now rewrite rev_involutive.
Qed.

Lemma pop_nil_inv (a : list A) : fst (pop a) = None -> a = [].
Proof.
  unfold pop. destruct (rev a) eqn:E; simpl; [|discriminate].
  intros _. apply (f_equal (@rev A)) in E. now rewrite rev_involutive in E.
Qed.

Lemma pop_some (a : list A) (x : A) (r : list A) :
  pop a = (Some x, r) -> a = r ++ [x].
Proof.
  unfold pop. destruct (rev a) eqn:E; [discriminate|].
  intros H. injection H as -> <-.
  apply (f_equal (@rev A)) in E. rewrite rev_involutive in E. now subst.
Qed.

Lemma pop_nonempty (a : list A) :
  a <> [] -> exists x r, pop a = (Some x, r) /\ a = r ++ [x].
Proof.
  intros Ha. destruct (pop a) as [[x|] r] eqn:E.
  - exists x, r. split; [reflexivity|]. now apply pop_some.
  - exfalso. apply Ha. apply pop_nil_inv. now rewrite E.
Qed.

(** Splicing [k] elements off at [length a - k] always removes a trailing
    segment, whatever [k] is. *)
Lemma splice_tail (a : list A) (k : nat) :
  let '(removed, rest) :=
    splice a (Z.of_nat (length a) - Z.of_nat k) (Z.of_nat k) in
  rest ++ removed = a.
Proof.
  unfold splice.
  set (len := Z.of_nat (length a)).
  set (start := (len - Z.of_nat k)%Z).
  set (actualStart :=
         if (start <? 0)%Z then Z.max (len + start) 0 else Z.min start len).
  set (dc := Z.min (Z.max (Z.of_nat k) 0) (len - actualStart)).
  assert (Hs : (0 <= actualStart <= len)%Z).
  { unfold actualStart. destruct (Z.ltb_spec start 0); lia. }
  assert (Hd : (actualStart + dc = len)%Z).
  { unfold dc, actualStart, start. destruct (Z.ltb_spec (len - Z.of_nat k) 0); lia. }
  assert (Hn : (Z.to_nat actualStart + Z.to_nat dc = length a)%nat) by lia.
  rewrite Hn, skipn_all, app_nil_r.
  rewrite (firstn_all2 (n := Z.to_nat dc) (skipn (Z.to_nat actualStart) a))
    by (rewrite length_skipn; lia).
  apply firstn_skipn.
Qed.

(** When the array holds at least [k] elements the removed segment is
    exactly the last [k] ones. *)
Lemma splice_suffix (a b : list A) :
  splice (a ++ b) (Z.of_nat (length (a ++ b)) - Z.of_nat (length b))
         (Z.of_nat (length b)) = (b, a).
Proof.
  unfold splice.
  set (len := Z.of_nat (length (a ++ b))).
  set (start := (len - Z.of_nat (length b))%Z).
  set (actualStart :=
         if (start <? 0)%Z then Z.max (len + start) 0 else Z.min start len).
  set (dc := Z.min (Z.max (Z.of_nat (length b)) 0) (len - actualStart)).
  assert (Hlen : len = (Z.of_nat (length a) + Z.of_nat (length b))%Z).
  { unfold len. rewrite length_app. lia. }
  assert (Hs : Z.to_nat actualStart = length a).
  { unfold actualStart, start. destruct (Z.ltb_spec (len - Z.of_nat (length b)) 0); lia. }
  assert (Hd : Z.to_nat dc = length b).
  { unfold dc. lia. }
  rewrite Hs, Hd.
  rewrite skipn_app, skipn_all, Nat.sub_diag. simpl.
  rewrite firstn_all, firstn_app, firstn_all, Nat.sub_diag. simpl.
  rewrite app_nil_r.
  rewrite skipn_all2 by (rewrite length_app; lia).
  now rewrite app_nil_r.
Qed.

End Facts.
End JsArrayFacts.

(* ================================================================== *)
(** * The operation log: undo, redo and the history bound *)
(* ================================================================== *)

Module OperationStackFacts.
Import Types JsArray OperationStack TypesFacts JsArrayFacts.

Lemma bound_nonempty (stack : list (list Operation)) :
  stack <> [] -> bound stack <> [].
Proof.
  unfold bound, shift. destruct (Nat.ltb_spec maxStackSize (length stack)) as [H|H];
    [|tauto].
  intros _. unfold maxStackSize in H.
  destruct stack as [|g [|g' stack']]; simpl in *; [lia|lia|discriminate].
Qed.

Lemma bound_small (stack : list (list Operation)) :
  (length stack <= maxStackSize)%nat -> bound stack = stack.
Proof.
  unfold bound. intros H.
  destruct (Nat.ltb_spec maxStackSize (length stack)); [lia|reflexivity].
Qed.

Lemma bound_push (stack : list (list Operation)) (g : list Operation) :
  exists stack', bound (push stack g) = stack' ++ [g].
Proof.
  unfold bound, push, shift.
  destruct (Nat.ltb_spec maxStackSize (length (stack ++ [g]))) as [H|H].
  - destruct stack as [|g0 stack0].
    + simpl in H. unfold maxStackSize in H. lia.
    + exists stack0. reflexivity.
  - now exists stack.
Qed.

Lemma canUndo_false (m : OperationStackManager) :
  undoStack m = [] -> canUndo m = false.
Proof. unfold canUndo. now intros ->. Qed.

Lemma canUndo_true (m : OperationStackManager) :
  undoStack m <> [] -> canUndo m = true.
Proof. unfold canUndo. destruct (undoStack m); [tauto|reflexivity]. Qed.

Lemma canRedo_false (m : OperationStackManager) :
  redoStack m = [] -> canRedo m = false.
Proof. unfold canRedo. now intros ->. Qed.

Lemma canRedo_true (m : OperationStackManager) :
  redoStack m <> [] -> canRedo m = true.
Proof. unfold canRedo. destruct (redoStack m); [tauto|reflexivity]. Qed.

(** What [undo] does when the undo stack ends in the group [g]. *)
Lemma undo_step (m : OperationStackManager) (r : list (list Operation))
    (g : list Operation) :
  undoStack m = r ++ [g] ->
  undo m =
    let '(removedOps, operations') :=
      splice (operations m)
        (Z.of_nat (length (operations m)) - Z.of_nat (length g))
        (Z.of_nat (length g)) in
    (Some removedOps,
     mkManager operations' r (bound (push (redoStack m) removedOps))).
Proof.
  intros Hu. unfold undo.
  rewrite canUndo_true by (rewrite Hu; now destruct r).
  simpl. rewrite Hu. change (r ++ [g]) with (push r g). now rewrite pop_push.
Qed.

(** What [redo] does when the redo stack ends in the group [g]. *)
Lemma redo_step (m : OperationStackManager) (r : list (list Operation))
    (g : list Operation) :
  redoStack m = r ++ [g] ->
  redo m =
    (Some g, mkManager (push_all (operations m) g) (push (undoStack m) g) r).
Proof.
  intros Hr. unfold redo.
  rewrite canRedo_true by (rewrite Hr; now destruct r).
  simpl. rewrite Hr. change (r ++ [g]) with (push r g). now rewrite pop_push.
Qed.

Lemma redo_empty (m : OperationStackManager) :
  redoStack m = [] -> redo m = (None, m).
Proof. intros H. unfold redo. now rewrite canRedo_false. Qed.

(** C2.  On a log whose undo stack is empty, [undo()] returns [null] and
    the manager it leaves is the one it found: [operations], the undo
    stack and the redo stack are all unchanged. *)
Theorem undo_empty_noop (m : OperationStackManager) :
  undoStack m = [] -> undo m = (None, m) /\ canUndo m = false.
Proof.
  intros H. unfold undo. rewrite (canUndo_false m H). now split.
Qed.

Lemma undo_empty_noop_witness :
  undoStack Examples.one_undone = [] /\
  undo Examples.one_undone = (None, Examples.one_undone) /\
  canUndo Examples.one_undone = false.
Proof.
  split; [reflexivity|].
  apply (undo_empty_noop Examples.one_undone). reflexivity.
Defined.

(** C10.  [resetTool(type)] on a log that holds no operation of that type
    returns the manager untouched: the redo stack is not cleared and no
    group is pushed on the undo stack. *)
Theorem resetTool_absent_noop (toolType : OpType) (m : OperationStackManager) :
  (forall op, In op (operations m) -> op_type op <> toolType) ->
  resetTool toolType m = m.
Proof.
  intros H. unfold resetTool.
  assert (E : filter (has_type toolType) (operations m) = []).
  { induction (operations m) as [|op ops IH]; [reflexivity|]. simpl.
    unfold has_type at 1.
    destruct (type_eqb_spec (op_type op) toolType) as [e|_].
    - exfalso. apply (H op); [now left|exact e].
    - apply IH. intros o Ho. apply H. now right. }
  now rewrite E.
Qed.

Lemma resetTool_absent_noop_witness :
  redoStack Examples.mixed <> [] /\
  resetTool liquify Examples.mixed = Examples.mixed.
Proof.
  split; [discriminate|].
  apply (resetTool_absent_noop liquify Examples.mixed).
  intros op Hop. vm_compute in Hop.
  destruct Hop as [<-|[<-|[]]]; discriminate.
Defined.

(** ** Clearing of the redo stack *)

(** C4, counterexample.  After one append and one undo the log holds no
    liquify operation; [resetTool('liquify')] then leaves the redo stack as
    it was, with its one group. *)
Lemma resetTool_keeps_redo_cex :
  appended Examples.one_append /\
  Examples.one_undone = snd (undo Examples.one_append) /\
  redoStack (resetTool liquify Examples.one_undone) <> [] /\
  ~ (forall (t : OpType) (m : OperationStackManager),
        redoStack (resetTool t m) = []).
Proof.
  split; [apply appended_add, appended_new|].
  split; [reflexivity|].
  split; [discriminate|].
  intros H. specialize (H liquify Examples.one_undone). discriminate H.
Qed.

(** C4, amended.  The redo stack is empty after every [addOperation],
    [addOperations] and [replaceOperationsOfType], and after every
    [resetTool] that finds an operation of the given type to remove;
    [undo()] on a non-empty undo stack leaves the redo stack non-empty. *)
Theorem redo_cleared_by_edits (m : OperationStackManager) :
  (forall op, redoStack (addOperation op m) = []) /\
  (forall ops, redoStack (addOperations ops m) = []) /\
  (forall t op, redoStack (replaceOperationsOfType t op m) = []) /\
  (forall t, getOperationsByType t m <> [] -> redoStack (resetTool t m) = []) /\
  (undoStack m <> [] ->
   redoStack (snd (undo m)) <> [] /\ canRedo (snd (undo m)) = true).
Proof.
  assert (Hundo : undoStack m <> [] -> redoStack (snd (undo m)) <> []).
  { intros H. destruct (pop_nonempty _ _ H) as (g & r & _ & Hu).
    rewrite (undo_step m r g Hu).
    destruct (splice _ _ _) as [removedOps operations']. simpl.
    apply bound_nonempty. unfold push. now destruct (redoStack m). }
  split; [reflexivity|]. split; [reflexivity|]. split; [reflexivity|].
  split.
  - intros t Ht. unfold resetTool, getOperationsByType in *.
    destruct (filter (has_type t) (operations m)); [tauto|reflexivity].
  - intros H. split; [now apply Hundo|]. apply canRedo_true. now apply Hundo.
Qed.

Lemma redo_cleared_by_edits_witness :
  getOperationsByType color Examples.mixed <> [] /\
  redoStack Examples.mixed <> [] /\
  redoStack (resetTool color Examples.mixed) = [] /\
  undoStack Examples.one_append <> [] /\
  redoStack (snd (undo Examples.one_append)) <> [].
Proof.
  split; [discriminate|]. split; [discriminate|].
  split.
  - apply (redo_cleared_by_edits Examples.mixed). discriminate.
  - split; [discriminate|].
    apply (redo_cleared_by_edits Examples.one_append). discriminate.
Defined.

(** ** [optimizeOperations] and the history *)

(** C6.  [optimizeOperations] assigns [operations] and leaves both stacks
    as they were: the history is not discarded, it stays and no longer
    describes the log.  After the appends
    eyeSize 5, magnifier, eyeSize 8 on a fresh log the call leaves
    [eyeSize 8; magnifier] in [operations] and the three groups on the undo
    stack, [canUndo()] is true, and the three [undo()] calls that follow
    return the magnifier operation (not the last edit), the eyeSize 8
    operation and an empty array, while before the call the first
    [undo()] returns the eyeSize 8 operation.  After one append and one
    undo the call leaves the redo stack with its group and [canRedo()]
    true.  The other methods that replace [operations] as a whole, [clear],
    [resetTool], [replaceOperationsOfType] and [clearOperationsOfType],
    empty the redo stack, and [reset] empties both stacks. *)
Theorem optimize_stale_history :
  let m := optimizeOperations Examples.three_edits in
  (operations m = [Examples.eyeSize8; Examples.magnifier1] /\
   undoStack m =
     [[Examples.eyeSize5]; [Examples.magnifier1]; [Examples.eyeSize8]] /\
   canUndo m = true) /\
  (fst (undo Examples.three_edits) = Some [Examples.eyeSize8] /\
   fst (undo m) = Some [Examples.magnifier1] /\
   fst (undo (undo_times 1 m)) = Some [Examples.eyeSize8] /\
   fst (undo (undo_times 2 m)) = Some [] /\
   operations (undo_times 2 m) = [] /\
   canUndo (undo_times 2 m) = true) /\
  (redoStack (optimizeOperations Examples.one_undone) = [[Examples.magnifier1]] /\
   canRedo (optimizeOperations Examples.one_undone) = true) /\
  (redoStack Examples.mixed <> [] /\
   redoStack (clear Examples.mixed) = [] /\
   redoStack (resetTool color Examples.mixed) = [] /\
   redoStack (replaceOperationsOfType color Examples.color1 Examples.mixed) = [] /\
   redoStack (clearOperationsOfType color Examples.mixed) = [] /\
   undoStack (reset Examples.mixed) = [] /\
   redoStack (reset Examples.mixed) = []).
Proof.
  cbv zeta.
  split; [|split; [|split]].
  - split; [|split]; vm_compute; reflexivity.
  - split; [|split; [|split; [|split; [|split]]]]; vm_compute; reflexivity.
  - split; vm_compute; reflexivity.
  - split; [discriminate|].
    split; [|split; [|split; [|split; [|split]]]]; vm_compute; reflexivity.
Qed.

(** ** Undo followed by redo *)

(** Whatever the last undo group is, [undo()] takes a trailing segment
    off [operations] and [redo()] puts the same segment back. *)
Lemma undo_redo_operations (m : OperationStackManager) :
  redoStack m = [] ->
  operations (snd (redo (snd (undo m)))) = operations m.
Proof.
  intros Hr. destruct (undoStack m) as [|g0 u0] eqn:Hu.
  - unfold undo. rewrite (canUndo_false m Hu). simpl.
    now rewrite (redo_empty m Hr).
  - assert (Hne : undoStack m <> []) by (rewrite Hu; discriminate).
    destruct (pop_nonempty _ _ Hne) as (g & r & _ & Hu').
    rewrite (undo_step m r g Hu').
    pose proof (splice_tail _ (operations m) (length g)) as Hs.
    destruct (splice _ _ _) as [removedOps operations'].
    rewrite Hr. unfold push. simpl app.
    rewrite bound_small by (unfold maxStackSize; simpl; lia).
    rewrite (redo_step _ [] removedOps) by reflexivity.
    simpl. exact Hs.
Qed.

(** When the last undo group is the tail of [operations] and nothing
    waits to be redone, [undo()] then [redo()] gives the manager back. *)
Lemma undo_redo_state (m : OperationStackManager)
    (r : list (list Operation)) (pre g : list Operation) :
  redoStack m = [] -> undoStack m = r ++ [g] -> operations m = pre ++ g ->
  snd (redo (snd (undo m))) = m.
Proof.
  intros Hr Hu Ho. rewrite (undo_step m r g Hu).
  rewrite Ho at 1 2. rewrite splice_suffix.
  rewrite Hr. unfold push. simpl app.
  rewrite bound_small by (unfold maxStackSize; simpl; lia).
  rewrite (redo_step _ [] g) by reflexivity.
  simpl. unfold push_all, push.
  destruct m as [ops us rs]. simpl in *. now subst.
Qed.

(** A log built by appends alone has nothing to redo, and its last undo
    group, if any, is the last operation. *)
Lemma appended_shape (m : OperationStackManager) :
  appended m ->
  redoStack m = [] /\
  (undoStack m = [] \/
   exists r pre op, undoStack m = r ++ [[op]] /\ operations m = pre ++ [op]).
Proof.
  induction 1 as [initialOps|m op _ _].
  - split; [reflexivity|now left].
  - split; [reflexivity|right]. simpl.
    destruct (bound_push (undoStack m) [op]) as [r Hr].
    exists r, (operations m), op. now split.
Qed.

(** C1.  On every log reached from a fresh manager by [addOperation]
    calls, [undo()] followed at once by [redo()] leaves [operations] with
    the same elements in the same order; the two stacks come back too. *)
Theorem undo_redo_inverse (m : OperationStackManager) :
  appended m ->
  operations (snd (redo (snd (undo m)))) = operations m /\
  snd (redo (snd (undo m))) = m.
Proof.
  intros Ha. destruct (appended_shape m Ha) as [Hr Hshape].
  split; [now apply undo_redo_operations|].
  destruct Hshape as [Hu|(r & pre & op & Hu & Ho)].
  - unfold undo. rewrite (canUndo_false m Hu). simpl. now rewrite (redo_empty m Hr).
  - now apply (undo_redo_state m r pre [op]).
Qed.

Lemma undo_redo_inverse_witness :
  appended Examples.reopened /\
  operations (snd (undo Examples.reopened)) <> operations Examples.reopened /\
  operations (snd (redo (snd (undo Examples.reopened)))) =
    operations Examples.reopened.
Proof.
  assert (Ha : appended Examples.reopened) by apply appended_add, appended_new.
  split; [exact Ha|]. split; [discriminate|].
  exact (proj1 (undo_redo_inverse Examples.reopened Ha)).
Defined.

(** ** The history bound *)

Lemma addOperation_evicts (m : OperationStackManager) (op : Operation) :
  (maxStackSize <= length (undoStack m))%nat ->
  undoStack (addOperation op m) = tl (undoStack m) ++ [[op]].
Proof.
  intros H. simpl. unfold bound, push, shift.
  rewrite length_app, Nat.add_1_r.
  destruct (Nat.ltb_spec maxStackSize (S (length (undoStack m)))); [|lia].
  destruct (undoStack m); [unfold maxStackSize in H; simpl in H; lia|reflexivity].
Qed.

Lemma addOperation_below (m : OperationStackManager) (op : Operation) :
  (length (undoStack m) < maxStackSize)%nat ->
  undoStack (addOperation op m) = undoStack m ++ [[op]].
Proof.
  intros H. simpl. apply bound_small. unfold push.
  rewrite length_app, Nat.add_1_r. lia.
Qed.

(** C3.  Sixty single operations [op 1 .. op 60] appended to an empty log
    leave an undo stack of exactly fifty groups, those of appends 11 to
    60; fifty undos empty it and leave the ten oldest operations in
    [operations], where a further [undo()] changes nothing.  In general an
    append onto an undo stack of fifty or more groups drops the oldest
    group, and an append onto a shorter one drops nothing. *)
Theorem capacity_bound (op : nat -> Operation) :
  let m := append_all (map op (seq 1 60)) (new_manager []) in
  (length (undoStack m) = 50%nat /\
   undoStack m = map (fun i => [op i]) (seq 11 50) /\
   operations m = map op (seq 1 60) /\
   undoStack (undo_times 50 m) = [] /\
   operations (undo_times 50 m) = map op (seq 1 10) /\
   undo (undo_times 50 m) = (None, undo_times 50 m)) /\
  (forall m' o, (maxStackSize <= length (undoStack m'))%nat ->
     undoStack (addOperation o m') = tl (undoStack m') ++ [[o]] /\
     length (undoStack (addOperation o m')) = length (undoStack m')) /\
  (forall m' o, (length (undoStack m') < maxStackSize)%nat ->
     undoStack (addOperation o m') = undoStack m' ++ [[o]]).
Proof.
  split; [|split].
  - split; [|split; [|split; [|split; [|split]]]]; vm_compute; reflexivity.
  - intros m' o H. rewrite (addOperation_evicts m' o H). split; [reflexivity|].
    rewrite length_app, Nat.add_1_r.
    destruct (undoStack m'); [unfold maxStackSize in H; simpl in H; lia|reflexivity].
  - intros m' o H. now apply addOperation_below.
Qed.

Lemma capacity_bound_witness :
  (maxStackSize <= length (undoStack Examples.full))%nat /\
  undoStack (addOperation Examples.magnifier1 Examples.full) =
    tl (undoStack Examples.full) ++ [[Examples.magnifier1]] /\
  undoStack (addOperation Examples.magnifier1 Examples.one_append) =
    undoStack Examples.one_append ++ [[Examples.magnifier1]].
Proof.
  pose proof (capacity_bound (fun _ => Examples.color1)) as [_ [Hfull Hbelow]].
  split; [vm_compute; lia|]. split.
  - apply Hfull. vm_compute. lia.
  - apply Hbelow. vm_compute. lia.
Defined.

End OperationStackFacts.

(* ================================================================== *)
(** * The operation log: [optimizeOperations] *)
(* ================================================================== *)

Module MapFacts.
Import OperationStack.
Section Facts.
Variables (K V : Type) (eqb : K -> K -> bool).
Hypothesis eqb_spec : forall a b, reflect (a = b) (eqb a b).
Implicit Types (k : K) (v : V) (m : list (K * V)).

Lemma map_get_set k k' v m :
  map_get eqb k' (map_set eqb k v m) =
  if eqb k k' then Some v else map_get eqb k' m.
Proof.
  induction m as [|[k0 v0] rest IH]; simpl.
  - reflexivity.
  - destruct (eqb_spec k0 k) as [->|Hk]; simpl.
    + destruct (eqb_spec k k'); congruence.
    + rewrite IH. destruct (eqb_spec k0 k') as [->|_]; [|reflexivity].
      destruct (eqb_spec k k'); congruence.
Qed.

Lemma map_get_none_keys k m :
  map_get eqb k m = None <-> ~ In k (map fst m).
Proof.
  induction m as [|[k0 v0] rest IH]; simpl.
  - tauto.
  - destruct (eqb_spec k0 k) as [->|Hk].
    + split; [discriminate|]. intros H. exfalso. apply H. now left.
    + rewrite IH. tauto.
Qed.

Lemma map_set_NoDup k v m :
  NoDup (map fst m) -> NoDup (map fst (map_set eqb k v m)).
Proof.
  induction m as [|[k0 v0] rest IH]; simpl; intros Hnd.
  - constructor; [tauto|constructor].
  - inversion Hnd as [|? ? Hnotin Hrest]; subst.
    destruct (eqb_spec k0 k) as [->|Hk]; simpl.
    + now constructor.
    + constructor; [|now apply IH].
      apply map_get_none_keys. rewrite map_get_set.
      destruct (eqb_spec k k0) as [->|_]; [tauto|].
      now apply map_get_none_keys.
Qed.

Lemma map_get_in k v m :
  NoDup (map fst m) -> In (k, v) m -> map_get eqb k m = Some v.
Proof.
  induction m as [|[k0 v0] rest IH]; simpl; intros Hnd Hin; [tauto|].
  inversion Hnd as [|? ? Hnotin Hrest]; subst.
  destruct Hin as [E|Hin].
  - injection E as -> ->. now destruct (eqb_spec k k).
  - destruct (eqb_spec k0 k) as [->|_]; [|now apply IH].
    exfalso. apply Hnotin. change k with (fst (k, v)). now apply in_map.
Qed.

(** With distinct keys, selecting the entries of one key selects what
    [get] returns. *)
Lemma flat_map_select (B : Type) (f : V -> list B) k m :
  NoDup (map fst m) ->
  flat_map (fun e => if eqb (fst e) k then f (snd e) else []) m =
  match map_get eqb k m with
  | Some v => f v
  | None => []
  end.
Proof.
  induction m as [|[k0 v0] rest IH]; simpl; intros Hnd; [reflexivity|].
  inversion Hnd as [|? ? Hnotin Hrest]; subst.
  rewrite (IH Hrest).
  destruct (eqb_spec k0 k) as [->|_]; [|reflexivity].
  apply map_get_none_keys in Hnotin. rewrite Hnotin. apply app_nil_r.
Qed.

End Facts.

Arguments map_get_set {K V eqb} eqb_spec k k' v m.
Arguments map_get_none_keys {K V eqb} eqb_spec k m.
Arguments map_set_NoDup {K V eqb} eqb_spec k v m _.
Arguments map_get_in {K V eqb} eqb_spec k v m _ _.
Arguments flat_map_select {K V eqb} eqb_spec {B} f k m _.

End MapFacts.

Module OptimizeFacts.
Import Types JsArray OperationStack TypesFacts JsArrayFacts MapFacts.

Lemma flat_map_ext_in (A B : Type) (f g : A -> list B) (l : list A) :
  (forall a, In a l -> f a = g a) -> flat_map f l = flat_map g l.
Proof.
  induction l as [|a l IH]; simpl; intros H; [reflexivity|].
  rewrite (H a) by now left. rewrite IH; [reflexivity|].
  intros b Hb. apply H. now right.
Qed.

Lemma filter_flat_map (A B : Type) (P : B -> bool) (f : A -> list B)
    (l : list A) :
  filter P (flat_map f l) = flat_map (fun a => filter P (f a)) l.
Proof.
  induction l as [|a l IH]; simpl; [reflexivity|].
  now rewrite filter_app, IH.
Qed.

Lemma last_of_push (a : list Operation) (op : Operation) :
  last_of (a ++ [op]) = Some op.
Proof. unfold last_of. change (a ++ [op]) with (push a op). now rewrite pop_push. Qed.

Lemma last_of_in (a : list Operation) (op : Operation) :
  last_of a = Some op -> In op a.
Proof.
  unfold last_of. destruct (pop a) as [o r] eqn:E. simpl. intros ->.
  apply pop_some in E. rewrite E. apply in_or_app. right. now left.
Qed.

Lemma group_step_set (G : list (OpType * list Operation)) (op : Operation) :
  group_step G op =
  map_set type_eqb (op_type op)
    (match map_get type_eqb (op_type op) G with
     | Some l => l ++ [op]
     | None => [op]
     end) G.
Proof.
  unfold group_step.
  destruct (map_get type_eqb (op_type op) G) as [l|] eqn:E.
  - now rewrite E.
  - rewrite (map_get_set type_eqb_spec), type_eqb_refl.
    unfold push. simpl.
    clear E. induction G as [|[t0 l0] rest IH]; simpl.
    + now rewrite type_eqb_refl.
    + destruct (type_eqb_spec t0 (op_type op)); simpl.
      * destruct (type_eqb_spec t0 (op_type op)); [reflexivity|tauto].
      * destruct (type_eqb_spec t0 (op_type op)); [tauto|]. now rewrite IH.
Qed.

(** The first loop of [optimizeOperations]: one group per type that
    occurs, holding the operations of that type in their order. *)
Lemma typeGroups_spec (ops : list Operation) :
  NoDup (map fst (typeGroups ops)) /\
  forall t, map_get type_eqb t (typeGroups ops) = group_of t ops.
Proof.
  unfold typeGroups.
  induction ops as [|op ops IH] using rev_ind.
  - split; [constructor|reflexivity].
  - destruct IH as [Hnd Hget]. rewrite fold_left_app. simpl.
    rewrite group_step_set. split.
    + now apply (map_set_NoDup type_eqb_spec).
    + intros t. rewrite (map_get_set type_eqb_spec), !Hget.
      unfold group_of. rewrite filter_app. simpl.
      change (has_type t op) with (type_eqb (op_type op) t).
      destruct (type_eqb_spec (op_type op) t) as [E|Hne].
      * subst t. destruct (filter (has_type (op_type op)) ops); reflexivity.
      * now rewrite app_nil_r.
Qed.

Lemma typeGroups_entry (ops : list Operation) (t : OpType)
    (l : list Operation) :
  In (t, l) (typeGroups ops) -> l = filter (has_type t) ops /\ l <> [].
Proof.
  intros Hin. destruct (typeGroups_spec ops) as [Hnd Hget].
  apply (map_get_in type_eqb_spec _ _ _ Hnd) in Hin.
  rewrite Hget in Hin. unfold group_of in Hin.
  destruct (filter (has_type t) ops) eqn:E; [discriminate|].
  injection Hin as <-. split; [reflexivity|discriminate].
Qed.

(** *** The per-key map of a parametric group *)

Lemma param_has_key (ty : OpType) (op : Operation) :
  is_param_type ty -> op_type op = ty -> exists k, op_key op = Some k.
Proof.
  intros [-> | ->] H; destruct op; try discriminate H; simpl; eauto.
Qed.

Lemma is_param_of_key (ty : OpType) (op : Operation) (k0 k : string) :
  op_type op = ty -> op_key op = Some k0 ->
  is_param ty k op = String.eqb k0 k.
Proof.
  intros Ht Hk. unfold is_param, has_type. now rewrite Ht, type_eqb_refl, Hk.
Qed.

Lemma is_param_true (ty : OpType) (k : string) (op : Operation) :
  is_param ty k op = true -> op_type op = ty /\ op_key op = Some k.
Proof.
  unfold is_param, has_type. intros H.
  apply andb_true_iff in H. destruct H as [Ht Hk].
  split; [now apply type_eqb_eq|].
  destruct (op_key op) as [k'|]; [|discriminate].
  destruct (String.eqb_spec k' k) as [E|E]; [now subst|discriminate].
Qed.

Lemma param_step_set (ty : OpType) (pm : list (string * Operation))
    (op : Operation) (k0 : string) :
  is_param_type ty -> op_type op = ty -> op_key op = Some k0 ->
  param_step pm op = map_set String.eqb k0 op pm.
Proof.
  intros [-> | ->] Ht Hk; unfold param_step; now rewrite Ht, Hk.
Qed.

Lemma paramMap_spec (ty : OpType) (l : list Operation) :
  is_param_type ty -> Forall (fun o => op_type o = ty) l ->
  NoDup (map fst (paramMap l)) /\
  forall k, map_get String.eqb k (paramMap l) = last_of (filter (is_param ty k) l).
Proof.
  intros Hty. unfold paramMap.
  induction l as [|op l IH] using rev_ind; intros Hall.
  - split; [constructor|reflexivity].
  - apply Forall_app in Hall. destruct Hall as [Hl Hop].
    inversion Hop as [|? ? Hop' _]; subst.
    destruct (IH Hl) as [Hnd Hget].
    destruct (param_has_key _ op Hty eq_refl) as [k0 Hk0].
    rewrite fold_left_app. simpl.
    rewrite (param_step_set _ _ op _ Hty eq_refl Hk0). split.
    + now apply (map_set_NoDup String.eqb_spec).
    + intros k. rewrite (map_get_set String.eqb_spec), Hget, filter_app. simpl.
      rewrite (is_param_of_key _ op _ k eq_refl Hk0).
      destruct (String.eqb k0 k).
      * now rewrite last_of_push.
      * now rewrite app_nil_r.
Qed.

Lemma paramMap_entry (ty : OpType) (l : list Operation) (k : string)
    (o : Operation) :
  is_param_type ty -> Forall (fun o => op_type o = ty) l ->
  In (k, o) (paramMap l) -> In o l /\ is_param ty k o = true.
Proof.
  intros Hty Hall Hin. destruct (paramMap_spec _ _ Hty Hall) as [Hnd Hget].
  apply (map_get_in String.eqb_spec _ _ _ Hnd) in Hin.
  rewrite Hget in Hin. apply last_of_in, filter_In in Hin. exact Hin.
Qed.

(** Of the values of the per-key map, those with key [k] are the last
    operation of the group that carries [k], if there is one. *)
Lemma paramMap_values (ty : OpType) (l : list Operation) (k : string) :
  is_param_type ty -> Forall (fun o => op_type o = ty) l ->
  filter (is_param ty k) (map_values (paramMap l)) =
  opt_list (last_of (filter (is_param ty k) l)).
Proof.
  intros Hty Hall. destruct (paramMap_spec _ _ Hty Hall) as [Hnd Hget].
  unfold map_values, opt_list. rewrite <- Hget.
  rewrite <- (flat_map_select String.eqb_spec (fun o => [o]) k _ Hnd).
  assert (E : forall pm : list (string * Operation),
             filter (is_param ty k) (map snd pm) =
             flat_map (fun e => if is_param ty k (snd e) then [snd e] else []) pm).
  { induction pm as [|e pm IHpm]; simpl; [reflexivity|].
    rewrite IHpm. now destruct (is_param ty k (snd e)). }
  rewrite E. apply flat_map_ext_in. intros [k' o] Hin. simpl.
  destruct (paramMap_entry _ _ _ _ Hty Hall Hin) as [_ Hp].
  apply is_param_true in Hp. destruct Hp as [Ht Hk].
  now rewrite (is_param_of_key _ o _ k Ht Hk).
Qed.

(** *** What one group contributes *)

Lemma optimize_group_param (ty : OpType) (l : list Operation) :
  is_param_type ty -> Forall (fun o => op_type o = ty) l ->
  optimize_group l = map_values (paramMap l).
Proof.
  intros Hty Hall. destruct l as [|op0 [|op1 rest]].
  - reflexivity.
  - inversion Hall as [|? ? Hop _]; subst.
    destruct (param_has_key _ op0 Hty eq_refl) as [k0 Hk0].
    unfold paramMap. simpl.
    now rewrite (param_step_set _ _ op0 _ Hty eq_refl Hk0).
  - inversion Hall as [|? ? Hop _]; subst.
    unfold optimize_group. now destruct Hty as [-> | ->].
Qed.

(** Every operation a group contributes has the type of the group. *)
Lemma optimize_group_type (t : OpType) (l : list Operation) :
  Forall (fun o => op_type o = t) l ->
  Forall (fun o => op_type o = t) (optimize_group l).
Proof.
  intros Hall. destruct l as [|op0 [|op1 rest]]; [constructor|exact Hall|].
  assert (H0 : op_type op0 = t) by now inversion Hall.
  remember (op0 :: op1 :: rest) as l eqn:El.
  assert (Hsub : forall l', (forall o, In o l' -> In o l) ->
                   Forall (fun o => op_type o = t) l').
  { intros l' Hl'. apply Forall_forall. intros o Ho.
    rewrite Forall_forall in Hall. apply Hall. now apply Hl'. }
  assert (Hlast : forall a, (forall o, In o a -> In o l) ->
                   Forall (fun o => op_type o = t)
                     (match fst (pop a) with Some x => [x] | None => [] end)).
  { intros a Ha. destruct (fst (pop a)) as [x|] eqn:E; [|constructor].
    constructor; [|constructor].
    rewrite Forall_forall in Hall. apply Hall, Ha. now apply last_of_in. }
  unfold optimize_group. rewrite El at 1. cbv iota.
  destruct (op_type op0) eqn:E0; try (apply Hsub; tauto).
  - destruct (0 <? _)%nat; [|constructor].
    destruct (fst (pop _)); constructor; [now rewrite <- H0|constructor].
  - apply Forall_forall. intros o Ho. unfold map_values in Ho.
    apply in_map_iff in Ho. destruct Ho as [[k o'] [<- Hin]].
    assert (Hty : is_param_type t) by (left; congruence).
    destruct (paramMap_entry _ _ _ _ Hty Hall Hin) as [Hol _].
    rewrite Forall_forall in Hall. now apply Hall.
  - apply Forall_forall. intros o Ho. unfold map_values in Ho.
    apply in_map_iff in Ho. destruct Ho as [[k o'] [<- Hin]].
    assert (Hty : is_param_type t) by (right; congruence).
    destruct (paramMap_entry _ _ _ _ Hty Hall Hin) as [Hol _].
    rewrite Forall_forall in Hall. now apply Hall.
  - apply Hlast. tauto.
Qed.

Lemma filter_has_type_Forall (t : OpType) (ops : list Operation) :
  Forall (fun o => op_type o = t) (filter (has_type t) ops).
Proof.
  apply Forall_forall. intros o Ho. apply filter_In in Ho.
  destruct Ho as [_ Ho]. now apply type_eqb_eq.
Qed.

Lemma filter_is_param_has_type (ty : OpType) (k : string)
    (ops : list Operation) :
  filter (is_param ty k) (filter (has_type ty) ops) = filter (is_param ty k) ops.
Proof.
  induction ops as [|o ops IH]; simpl; [reflexivity|].
  destruct (has_type ty o) eqn:E; simpl; rewrite IH.
  - reflexivity.
  - unfold is_param. now rewrite E.
Qed.

(** The parametric operations of type [ty] and key [k] that
    [optimizeOperations] keeps. *)
Lemma optimize_param_filter (ty : OpType) (k : string) (ops : list Operation) :
  is_param_type ty ->
  filter (is_param ty k)
    (flat_map optimize_group (map_values (typeGroups ops))) =
  opt_list (last_of (filter (is_param ty k) ops)).
Proof.
  intros Hty. destruct (typeGroups_spec ops) as [Hnd Hget].
  set (R := opt_list (last_of (filter (is_param ty k) ops))).
  unfold map_values. rewrite flat_map_concat_map, map_map, <- flat_map_concat_map.
  rewrite filter_flat_map.
  rewrite (flat_map_ext_in _ _ _
             (fun e => if type_eqb (fst e) ty then (fun _ => R) (snd e) else [])).
  - rewrite (flat_map_select type_eqb_spec (fun _ => R) ty _ Hnd), Hget.
    unfold group_of. destruct (filter (has_type ty) ops) eqn:E; [|reflexivity].
    unfold R. rewrite <- filter_is_param_has_type, E. reflexivity.
  - intros [t l] Hin. simpl.
    destruct (typeGroups_entry _ _ _ Hin) as [Hl _].
    pose proof (filter_has_type_Forall t ops) as Hall. rewrite <- Hl in Hall.
    destruct (type_eqb_spec t ty) as [->|Hne].
    + rewrite (optimize_group_param _ _ Hty Hall), (paramMap_values _ _ k Hty Hall).
      unfold R. now rewrite Hl, filter_is_param_has_type.
    + pose proof (optimize_group_type _ _ Hall) as Hout.
      induction (optimize_group l) as [|o out IHout]; [reflexivity|].
      inversion Hout as [|? ? Ho Hrest]; subst. simpl.
      unfold is_param at 1, has_type.
      destruct (type_eqb_spec (op_type o) ty) as [e|_]; [tauto|]. simpl.
      now apply IHout.
Qed.

(** C5.  After [optimizeOperations], for each of the types bodyParam and
    faceParam and each key, the operations of that type with that key are
    at most one, and the one kept is the last such operation of the log
    before the call, value included.  A faceParam eyeSize 5 followed by a
    faceParam eyeSize 8 is coalesced to the single faceParam eyeSize 8. *)
Theorem coalesce_params (m : OperationStackManager) (ty : OpType) (k : string) :
  ty = bodyParam \/ ty = faceParam ->
  filter (is_param ty k) (operations (optimizeOperations m)) =
    opt_list (last_of (filter (is_param ty k) (operations m))) /\
  (length (filter (is_param ty k) (operations (optimizeOperations m))) <= 1)%nat /\
  operations (optimizeOperations
                (append_all [Examples.eyeSize5; Examples.eyeSize8] (new_manager [])))
    = [Examples.eyeSize8] /\
  op_value Examples.eyeSize8 = Some 8%Q.
Proof.
  intros Hty.
  pose proof (optimize_param_filter _ k (operations m) Hty) as H.
  split; [exact H|]. split; [|split; reflexivity].
  simpl operations. rewrite H.
  destruct (last_of _); simpl; lia.
Qed.

Lemma coalesce_params_witness :
  filter (is_param faceParam "eyeSize")
    (operations (optimizeOperations Examples.reopened)) = [Examples.eyeSize8].
Proof.
  exact (proj1 (coalesce_params Examples.reopened faceParam "eyeSize" (or_intror eq_refl))).
Defined.

End OptimizeFacts.

(* ================================================================== *)
(** * The geometry mapper: aspect fit and the view/image round trip *)
(* ================================================================== *)

Module GeometryFacts.
Import Geometry.
Import Lqa.
Local Open Scope Q_scope.

Section AspectFit.
Variables iw ih cw ch : Q.
Hypotheses (Hiw : 0 < iw) (Hih : 0 < ih) (Hcw : 0 < cw) (Hch : 0 < ch).

Let s : Q := Qmin (cw / iw) (ch / ih).

Lemma fit_scale_pos : 0 < s.
Proof.
  apply Q.min_glb_lt; apply Qlt_shift_div_l; trivial; lra.
Qed.

Lemma fit_width_le : iw * s <= cw.
Proof.
  apply Qle_trans with (iw * (cw / iw)).
  - apply Qmult_le_l; [exact Hiw|apply Q.le_min_l].
  - setoid_replace (iw * (cw / iw)) with cw by (field; lra). apply Qle_refl.
Qed.

Lemma fit_height_le : ih * s <= ch.
Proof.
  apply Qle_trans with (ih * (ch / ih)).
  - apply Qmult_le_l; [exact Hih|apply Q.le_min_r].
  - setoid_replace (ih * (ch / ih)) with ch by (field; lra). apply Qle_refl.
Qed.

Lemma fit_touches : iw * s == cw \/ ih * s == ch.
Proof.
  destruct (Q.min_dec (cw / iw) (ch / ih)) as [E|E]; [left|right];
    unfold s; rewrite E; field; lra.
Qed.

Lemma fit_width_pos : 0 < iw * s.
Proof. apply Qmult_lt_0_compat; [exact Hiw|exact fit_scale_pos]. Qed.

Lemma fit_height_pos : 0 < ih * s.
Proof. apply Qmult_lt_0_compat; [exact Hih|exact fit_scale_pos]. Qed.

End AspectFit.

(** ** Aspect fit *)

(** [Math.round] of a binary64 number is the integer nearest to it, a tie
    going up. *)
Lemma Math_round_float (x : float) (n : Z) :
  ImageUtils.Math_round x = Some n ->
  exists p, ImageUtils.Q_of_float x = Some p /\
            n = Math_round p /\
            inject_Z n - (1 # 2) <= p /\ p < inject_Z n + (1 # 2).
Proof.
  unfold ImageUtils.Math_round. intros H.
  destruct (ImageUtils.Q_of_float x) as [p|]; [|discriminate H].
  simpl in H. injection H as <-. exists p.
  split; [reflexivity|]. split; [reflexivity|].
  unfold Math_round.
  pose proof (Qfloor_le (p + (1 # 2))) as Hlo.
  pose proof (Qlt_floor (p + (1 # 2))) as Hhi.
  rewrite inject_Z_plus in Hhi. change (inject_Z 1) with 1 in Hhi.
  split; lra.
Qed.

(** C7, counterexample.  For a 3 x 2 image in a 10 x 10 container the
    scale is 10/3 and the scaled height is 20/3; [calculateAspectRatioFit]
    returns the height 7, a third of a pixel away. *)
Lemma aspect_fit_rounds_cex :
  ImageUtils.calculateAspectRatioFit 3 2 10 10
    = ImageUtils.mkCanvasSize (Some 10%Z) (Some 7%Z) /\
  2 * Qmin (10 / 3) (10 / 2) == 20 # 3 /\
  ~ inject_Z 7 == 2 * Qmin (10 / 3) (10 / 2) /\
  (1 # 1000000) < Qabs (inject_Z 7 - 2 * Qmin (10 / 3) (10 / 2)).
Proof.
  split; [vm_compute; reflexivity|]. split; [reflexivity|]. split.
  - intros H. vm_compute in H. discriminate H.
  - reflexivity.
Qed.

(** C7, amended.  For positive sizes and in exact arithmetic,
    [aspectFitRect] returns exactly the image size scaled by
    [min(cw / iw, ch / ih)], centred in the container: no rounding, equal
    margins, inside the container, touching it in one direction, aspect
    ratio kept.  On binary64 floats it differs from that by the rounding
    of its operations only: for a 3024 x 4032 image in a 390 x 844
    container the width is not 390 and the origin x is not 0, both within
    2^-20 of it.  [calculateAspectRatioFit] returns only a size, and each
    dimension is [Math.round] of the binary64 product of the source
    dimension and the ratio: a whole number, the one nearest to that
    product, a tie going up.  A 3008 x 2000 image in a 390.5 x 594
    container gets the canvas 390 x 260, the product for the width being
    just below 390.5.  For a 4000 x 3000 image in an 800 x 600 container
    both functions give the size 800 x 600 and [aspectFitRect] the origin
    (0, 0), on binary64 floats too. *)
Theorem aspect_fit (iw ih cw ch : Q)
    (srcWidth srcHeight maxWidth maxHeight : float) :
  0 < iw -> 0 < ih -> 0 < cw -> 0 < ch ->
  let s := Qmin (cw / iw) (ch / ih) in
  let r := aspectFitRect (mkSize iw ih) (mkSize cw ch) in
  let ratio := ImageUtils.Math_min (maxWidth / srcWidth)%float
                                   (maxHeight / srcHeight)%float in
  let f := ImageUtils.calculateAspectRatioFit
             srcWidth srcHeight maxWidth maxHeight in
  (size_eq (size r) (mkSize (iw * s) (ih * s)) /\
   point_eq (origin r) (mkCGPoint ((cw - iw * s) / 2) ((ch - ih * s) / 2)) /\
   x (origin r) + width (size r) + x (origin r) == cw /\
   y (origin r) + height (size r) + y (origin r) == ch /\
   0 <= x (origin r) /\ 0 <= y (origin r) /\
   (width (size r) == cw \/ height (size r) == ch) /\
   width (size r) * ih == height (size r) * iw) /\
  (ImageUtils.canvasWidth f = ImageUtils.Math_round (srcWidth * ratio)%float /\
   ImageUtils.canvasHeight f = ImageUtils.Math_round (srcHeight * ratio)%float /\
   (forall n, ImageUtils.canvasWidth f = Some n ->
      exists p, ImageUtils.Q_of_float (srcWidth * ratio)%float = Some p /\
                inject_Z n - (1 # 2) <= p /\ p < inject_Z n + (1 # 2)) /\
   (forall n, ImageUtils.canvasHeight f = Some n ->
      exists p, ImageUtils.Q_of_float (srcHeight * ratio)%float = Some p /\
                inject_Z n - (1 # 2) <= p /\ p < inject_Z n + (1 # 2))) /\
  (rect_eq (aspectFitRect Examples.photo Examples.container)
           (mkRect (mkCGPoint 0 0) (mkSize 800 600)) /\
   GeometryF64.aspectFitRect64 (GeometryF64.mkSize 4000 3000)
                             (GeometryF64.mkSize 800 600)
   = GeometryF64.mkRect (GeometryF64.mkCGPoint 0 0)
                        (GeometryF64.mkSize 800 600) /\
   ImageUtils.calculateAspectRatioFit 4000 3000 800 600
   = ImageUtils.mkCanvasSize (Some 800%Z) (Some 600%Z)) /\
  (ImageUtils.calculateAspectRatioFit 3008 2000 390.5 594
   = ImageUtils.mkCanvasSize (Some 390%Z) (Some 260%Z) /\
   PrimFloat.ltb (3008 * ImageUtils.Math_min (390.5 / 3008) (594 / 2000))%float
                 390.5%float = true /\
   (let r64 := GeometryF64.aspectFitRect64 Examples.portrait64 Examples.screen64 in
    PrimFloat.eqb (GeometryF64.width (GeometryF64.size r64)) 390%float = false /\
    PrimFloat.eqb (GeometryF64.x (GeometryF64.origin r64)) 0%float = false /\
    GeometryF64.within Examples.tolerance64
      (GeometryF64.width (GeometryF64.size r64)) 390%float = true /\
    GeometryF64.within Examples.tolerance64
      (GeometryF64.x (GeometryF64.origin r64)) 0%float = true /\
    GeometryF64.height (GeometryF64.size r64) = 520%float /\
    GeometryF64.y (GeometryF64.origin r64) = 162%float)).
Proof.
  intros Hiw Hih Hcw Hch s r ratio f.
  pose proof (fit_width_le iw ih cw ch Hiw) as Hw.
  pose proof (fit_height_le iw ih cw ch Hih) as Hh.
  pose proof (fit_touches iw ih cw ch Hiw Hih) as Ht.
  fold s in Hw, Hh, Ht.
  split; [|split; [|split]].
  - unfold r, aspectFitRect, size_eq, point_eq. simpl. fold s. clearbody s.
    split; [split; apply Qeq_refl|].
    split; [split; apply Qeq_refl|].
    split; [field|]. split; [field|].
    remember (iw * s) as w eqn:Ew. remember (ih * s) as h eqn:Eh.
    split; [apply Qle_shift_div_l; lra|].
    split; [apply Qle_shift_div_l; lra|].
    split; [exact Ht|]. subst w h. ring.
  - unfold f, ImageUtils.calculateAspectRatioFit. fold ratio.
    cbn [ImageUtils.canvasWidth ImageUtils.canvasHeight].
    split; [reflexivity|]. split; [reflexivity|].
    split; intros n Hn; destruct (Math_round_float _ _ Hn) as (p & Hp & _ & Hb);
      exists p; (split; [exact Hp|exact Hb]).
  - split; [|split].
    + repeat split; reflexivity.
    + vm_compute. reflexivity.
    + vm_compute. reflexivity.
  - split; [vm_compute; reflexivity|]. split; [vm_compute; reflexivity|].
    cbv zeta.
    split; [vm_compute; reflexivity|]. split; [vm_compute; reflexivity|].
    split; [vm_compute; reflexivity|]. split; [vm_compute; reflexivity|].
    split; vm_compute; reflexivity.
Qed.

Lemma aspect_fit_witness :
  size_eq (size (aspectFitRect Examples.photo Examples.screen))
          (mkSize (4000 * Qmin (390 / 4000) (844 / 3000))
                  (3000 * Qmin (390 / 4000) (844 / 3000))) /\
  ImageUtils.canvasHeight (ImageUtils.calculateAspectRatioFit 3 2 10 10)
  = ImageUtils.Math_round (2 * ImageUtils.Math_min (10 / 3) (10 / 2))%float.
Proof.
  split.
  - apply (aspect_fit 4000 3000 390 844 3 2 10 10); reflexivity.
  - apply (aspect_fit 4000 3000 390 844 3 2 10 10); reflexivity.
Defined.

(** ** View to image and back *)

(** C9.  With the fit rectangle of a positive image extent in positive
    view bounds, mapping a point of the view into the image (subtract the
    fit origin, scale by extent over fit size, as [exportJPEG] does) and
    back (scale by fit size over extent, add the fit origin, as
    [makePreviewCIImage] places the image) returns the point, so both
    coordinates are within 1e-6; [exportJPEG] applies the first mapping to
    the centre after the flip to a bottom-left origin that the draw path
    applies too.  On binary64 floats the round trip of a sample point on a
    4032 x 3024 image in a 390 x 844 view stays within 2^-20, which is
    below 1e-6. *)
Theorem view_image_roundtrip (extent bounds : CGSize) (p : CGPoint) :
  0 < width extent -> 0 < height extent ->
  0 < width bounds -> 0 < height bounds ->
  let fit := aspectFitRect extent bounds in
  point_eq (imageToView extent bounds (viewToImage extent fit p)) p /\
  point_within (1 # 1000000)
    (imageToView extent bounds (viewToImage extent fit p)) p /\
  (forall centerPx,
     exportJPEG_ciCenter extent fit (height bounds) centerPx =
     viewToImage extent fit (draw_ciCenter (height bounds) centerPx)) /\
  (let fit64 := GeometryF64.aspectFitRect64 Examples.photo64 Examples.screen64 in
   let back := GeometryF64.imageToView64 Examples.photo64 Examples.screen64
                 (GeometryF64.viewToImage64 Examples.photo64 fit64 Examples.touch64) in
   GeometryF64.within Examples.tolerance64 (GeometryF64.x back) (GeometryF64.x Examples.touch64)
   && GeometryF64.within Examples.tolerance64 (GeometryF64.y back) (GeometryF64.y Examples.touch64)
   = true).
Proof.
  intros Hew Heh Hbw Hbh fit.
  destruct extent as [ew eh], bounds as [bw bh], p as [px py]. simpl in *.
  pose proof (fit_width_pos ew eh bw bh Hew Heh Hbw Hbh) as Hfw.
  pose proof (fit_height_pos ew eh bw bh Hew Heh Hbw Hbh) as Hfh.
  assert (Hrt : point_eq
            (imageToView (mkSize ew eh) (mkSize bw bh)
               (viewToImage (mkSize ew eh) fit (mkCGPoint px py)))
            (mkCGPoint px py)).
  { unfold imageToView, viewToImage, fit, aspectFitRect, point_eq. simpl.
    destruct (Qlt_le_dec 0 bw) as [_|Hc]; [|lra].
    destruct (Qlt_le_dec 0 bh) as [_|Hc]; [|lra].
    pose proof (fit_scale_pos ew eh bw bh Hew Heh Hbw Hbh) as Hs.
    simpl. set (s := Qmin (bw / ew) (bh / eh)) in *. clearbody s.
    split; field; split; lra. }
  split; [exact Hrt|]. split; [|split].
  - destruct Hrt as [Hx Hy]. unfold point_within.
    rewrite Hx, Hy. unfold Qminus. rewrite !Qplus_opp_r. split; discriminate.
  - reflexivity.
  - vm_compute. reflexivity.
Qed.

Lemma view_image_roundtrip_witness :
  point_eq
    (imageToView Examples.photo Examples.screen
       (viewToImage Examples.photo
          (aspectFitRect Examples.photo Examples.screen) Examples.touch))
    Examples.touch.
Proof.
  apply (view_image_roundtrip Examples.photo Examples.screen Examples.touch);
    reflexivity.
Defined.

End GeometryFacts.

(* ================================================================== *)
(** * The pinch/bulge shader: where a pixel is sampled *)
(* ================================================================== *)

Module ShaderFacts.
Import Shader.
Import Lra.
Local Open Scope R_scope.

Lemma vec2_eq (a b c d : R) : a = c -> b = d -> mkVec2 a b = mkVec2 c d.
Proof. now intros -> ->. Qed.

Lemma vlength_horizontal (a : R) : vlength (mkVec2 a 0) = Rabs a.
Proof.
  unfold vlength. simpl.
  replace (a * a + 0 * 0) with (Rsqr a) by (unfold Rsqr; ring).
  apply sqrt_Rsqr_abs.
Qed.

Lemma vlength_flip (a b : vec2) : vlength (vsub a b) = vlength (vsub b a).
Proof. unfold vlength, vsub. simpl. f_equal. ring. Qed.

(** At or beyond the radius the shader leaves the coordinate alone. *)
Lemma bulge_outside (center : vec2) (radius strength : R) (p : vec2) :
  radius <= vlength (vsub p center) ->
  bulge_coord center radius strength p = p.
Proof.
  intros H. unfold bulge_coord. rewrite (vlength_flip center p).
  destruct (Rlt_dec (vlength (vsub p center)) radius); [lra|reflexivity].
Qed.

(** Inside the radius the shader moves the coordinate by [+ d * amount],
    with [d = p - center]: away from the centre for a positive amount. *)
Lemma bulge_inside (center : vec2) (radius strength : R) (p : vec2) :
  vlength (vsub p center) < radius ->
  bulge_coord center radius strength p =
  vadd p (vscale (vsub p center)
            (bulge_amount strength (vlength (vsub p center) / radius))).
Proof.
  intros H. unfold bulge_coord. rewrite (vlength_flip center p).
  destruct (Rlt_dec (vlength (vsub p center)) radius); [|lra].
  unfold vsub, vadd, vscale. simpl. apply vec2_eq; ring.
Qed.

Lemma bulge_amount_pos (strength t : R) :
  0 < strength -> bulge_amount strength t = strength * ((1 - t) * (1 - t)).
Proof.
  intros H. unfold bulge_amount. destruct (Rlt_dec 0 strength); [ring|lra].
Qed.

Lemma bulge_amount_neg (strength t : R) :
  strength < 0 -> bulge_amount strength t = - Rabs strength * (1 - t * t).
Proof.
  intros H. unfold bulge_amount. destruct (Rlt_dec 0 strength); [lra|ring].
Qed.

(** C8.  Circle of radius 80 centred at (100, 100), strength 1/2, pixel
    (140, 100): [d = (40, 0)], [t = 1/2], [amount = 1/8].  The shader
    samples at (145, 100), that is [p + d * amount]; the specified
    coordinate [p - d * amount] is (135, 100).  With the circle at
    (190, 100), strength 1 and pixel (198, 100) the shader samples beyond
    the right border of a 200 pixel wide surface and hands the texture a
    coordinate above 1: nothing in [main] clamps it. *)
Theorem bulge_samples_outwards :
  bulge_coord Examples.middle 80 (1 / 2) Examples.pixel = mkVec2 145 100 /\
  spec_sampleCoord Examples.middle 80 (1 / 2) Examples.pixel = mkVec2 135 100 /\
  bulge_coord Examples.middle 80 (1 / 2) Examples.pixel <>
    spec_sampleCoord Examples.middle 80 (1 / 2) Examples.pixel /\
  200 < vx (bulge_coord Examples.near_edge 80 1 Examples.edge_pixel) /\
  1 < vx (bulge_main (fun texCoord => texCoord) Examples.near_edge 80 1
            Examples.surface (mkVec2 (198 / 200) (100 / 200))).
Proof.
  assert (L1 : vlength (vsub Examples.pixel Examples.middle) = 40).
  { unfold vsub. simpl. replace (140 - 100) with 40 by lra.
    replace (100 - 100) with 0 by lra.
    rewrite vlength_horizontal. apply Rabs_pos_eq. lra. }
  assert (L2 : vlength (vsub Examples.edge_pixel Examples.near_edge) = 8).
  { unfold vsub. simpl. replace (198 - 190) with 8 by lra.
    replace (100 - 100) with 0 by lra.
    rewrite vlength_horizontal. apply Rabs_pos_eq. lra. }
  assert (E1 : bulge_coord Examples.middle 80 (1 / 2) Examples.pixel
               = mkVec2 145 100).
  { rewrite bulge_inside by (rewrite L1; lra).
    rewrite L1, bulge_amount_pos by lra.
    unfold vadd, vscale, vsub. simpl. apply vec2_eq; field. }
  assert (E2 : spec_sampleCoord Examples.middle 80 (1 / 2) Examples.pixel
               = mkVec2 135 100).
  { unfold spec_sampleCoord. rewrite L1.
    destruct (Rle_dec 80 40); [lra|].
    destruct (Rlt_dec 0 (1 / 2)); [|lra].
    unfold vscale, vsub. simpl. apply vec2_eq; field. }
  assert (E3 : bulge_coord Examples.near_edge 80 1 Examples.edge_pixel
               = mkVec2 (20448 / 100) 100).
  { rewrite bulge_inside by (rewrite L2; lra).
    rewrite L2, bulge_amount_pos by lra.
    unfold vadd, vscale, vsub. simpl. apply vec2_eq; field. }
  split; [exact E1|]. split; [exact E2|]. split; [|split].
  - rewrite E1, E2. intros H. apply (f_equal vx) in H. simpl in H. lra.
  - rewrite E3. simpl. lra.
  - unfold bulge_main, vmul, Examples.surface. simpl.
    replace (198 / 200 * 200) with 198 by field.
    replace (100 / 200 * 200) with 100 by field.
    change (mkVec2 198 100) with Examples.edge_pixel.
    rewrite E3. simpl. lra.
Qed.

End ShaderFacts.

(* ================================================================== *)
(** * The operation log: history invariants *)
(* ================================================================== *)

Module HistoryFacts.
Import Types JsArray OperationStack OperationStackExt.
Import TypesFacts JsArrayFacts OperationStackFacts.

Lemma bound_length (stack : list (list Operation)) (g : list Operation) :
  (length (bound (push stack g)) <= Nat.max maxStackSize (length stack))%nat /\
  (length (bound (push stack g)) <= S (length stack))%nat.
Proof.
  unfold bound, push, shift. rewrite length_app, Nat.add_1_r.
  destruct (Nat.ltb_spec maxStackSize (S (length stack))) as [H|H].
  - destruct stack as [|g0 stack0].
    + unfold maxStackSize in H. simpl in H. lia.
    + change (tl ((g0 :: stack0) ++ [g])) with (stack0 ++ [g]).
      change (length (g0 :: stack0)) with (S (length stack0)) in *.
      rewrite length_app, Nat.add_1_r. lia.
  - rewrite length_app, Nat.add_1_r. lia.
Qed.

Lemma length_pop_rest (A : Type) (a r : list A) (x : A) :
  a = r ++ [x] -> length r = pred (length a).
Proof. intros ->. rewrite length_app, Nat.add_1_r. reflexivity. Qed.

(** The two stacks of an edited log hold at most fifty groups together. *)
Lemma edited_bounded (m : OperationStackManager) :
  edited m ->
  (length (undoStack m) + length (redoStack m) <= maxStackSize)%nat.
Proof.
  induction 1 as [initialOps|m op _ IH|m ops _ IH|m _ IH|m _ IH].
  - simpl. unfold maxStackSize. lia.
  - simpl. rewrite Nat.add_0_r.
    destruct (bound_length (undoStack m) [op]). lia.
  - simpl. rewrite Nat.add_0_r.
    destruct (bound_length (undoStack m) ops). lia.
  - destruct (undoStack m) as [|g0 u0] eqn:Hu.
    + unfold undo. rewrite (canUndo_false m Hu). simpl. now rewrite Hu.
    + assert (Hne : undoStack m <> []) by (rewrite Hu; discriminate).
      destruct (pop_nonempty _ _ Hne) as (g & r & _ & Hu').
      rewrite (undo_step m r g Hu').
      destruct (splice _ _ _) as [removedOps operations']. simpl.
      destruct (bound_length (redoStack m) removedOps) as [_ Hb].
      rewrite <- Hu, Hu', length_app, Nat.add_1_r in IH. lia.
  - destruct (redoStack m) as [|g0 r0] eqn:Hr.
    + rewrite (redo_empty m Hr). simpl. now rewrite Hr.
    + assert (Hne : redoStack m <> []) by (rewrite Hr; discriminate).
      destruct (pop_nonempty _ _ Hne) as (g & r & _ & Hr').
      rewrite (redo_step m r g Hr'). simpl. unfold push.
      rewrite <- Hr, Hr' in IH. rewrite !length_app, !Nat.add_1_r in *. lia.
Qed.

(** In an edited log the undo groups are, in order, the tail of
    [operations]. *)
(** Equal up to the bracketing of appends. *)
Ltac list_assoc :=
  simpl; repeat rewrite <- app_assoc; simpl; repeat rewrite app_nil_r;
  reflexivity.

Lemma edited_consistent (m : OperationStackManager) :
  edited m ->
  exists pre, operations m = pre ++ concat (undoStack m).
Proof.
  induction 1 as [initialOps|m op _ [pre IH]|m ops _ [pre IH]|m _ [pre IH]|m _ [pre IH]].
  - exists initialOps. simpl. now rewrite app_nil_r.
  - simpl. unfold bound, push, shift.
    destruct (Nat.ltb_spec maxStackSize (length (undoStack m ++ [[op]]))) as [H|H].
    + destruct (undoStack m) as [|g0 u0] eqn:Hu.
      * simpl in H. unfold maxStackSize in H. lia.
      * exists (pre ++ g0). rewrite IH. simpl.
        rewrite !concat_app. list_assoc.
    + exists pre. rewrite IH, concat_app. list_assoc.
  - simpl. unfold bound, push, push_all, shift.
    destruct (Nat.ltb_spec maxStackSize (length (undoStack m ++ [ops]))) as [H|H].
    + destruct (undoStack m) as [|g0 u0] eqn:Hu.
      * simpl in H. unfold maxStackSize in H. lia.
      * exists (pre ++ g0). rewrite IH. simpl.
        rewrite !concat_app. list_assoc.
    + exists pre. rewrite IH, concat_app. list_assoc.
  - destruct (undoStack m) as [|g0 u0] eqn:Hu.
    + unfold undo. rewrite (canUndo_false m Hu). simpl. exists pre.
      now rewrite IH, Hu.
    + assert (Hne : undoStack m <> []) by (rewrite Hu; discriminate).
      destruct (pop_nonempty _ _ Hne) as (g & r & _ & Hu').
      rewrite (undo_step m r g Hu').
      rewrite <- Hu, Hu', concat_app in IH. simpl in IH.
      rewrite app_nil_r, app_assoc in IH.
      exists pre. rewrite IH at 1 2. now rewrite splice_suffix.
  - destruct (redoStack m) as [|g0 r0] eqn:Hr.
    + rewrite (redo_empty m Hr). simpl. now exists pre.
    + assert (Hne : redoStack m <> []) by (rewrite Hr; discriminate).
      destruct (pop_nonempty _ _ Hne) as (g & r & _ & Hr').
      rewrite (redo_step m r g Hr'). simpl. unfold push, push_all.
      exists pre. rewrite IH, concat_app. list_assoc.
Qed.

(** X1.  However [addOperation], [addOperations], [undo] and [redo] are
    interleaved on a fresh manager, the undo stack and the redo stack never
    hold more than fifty groups between them, so [getState()] never reports
    an [undoCount] or a [redoCount] above fifty. *)
Theorem history_bounded (m : OperationStackManager) :
  edited m ->
  (length (undoStack m) + length (redoStack m) <= 50)%nat /\
  (undoCount (getState m) <= 50)%nat /\
  (redoCount (getState m) <= 50)%nat.
Proof.
  intros H. pose proof (edited_bounded m H) as Hb.
  unfold maxStackSize in Hb. simpl. lia.
Qed.

Lemma edited_mixed : edited Examples.mixed.
Proof.
  apply edited_undo.
  apply (edited_add (addOperation Examples.eyeSize5
                       (addOperation Examples.color1 (new_manager [])))).
  apply edited_add, edited_add, edited_new.
Qed.

Lemma history_bounded_witness :
  (length (undoStack Examples.mixed) + length (redoStack Examples.mixed) <= 50)%nat.
Proof.
  exact (proj1 (history_bounded Examples.mixed edited_mixed)).
Defined.

(** The step [undo] takes in an edited log. *)
Lemma edited_undo_step (m : OperationStackManager)
    (r : list (list Operation)) (g : list Operation) :
  edited m -> undoStack m = r ++ [g] ->
  exists front,
    operations m = front ++ g /\
    undo m = (Some g, mkManager front r (redoStack m ++ [g])).
Proof.
  intros He Hu. destruct (edited_consistent m He) as [pre Ho].
  pose proof (edited_bounded m He) as Hb.
  rewrite Hu, concat_app in Ho. simpl in Ho. rewrite app_nil_r, app_assoc in Ho.
  exists (pre ++ concat r). split; [exact Ho|].
  rewrite (undo_step m r g Hu). rewrite Ho at 1 2. rewrite splice_suffix.
  unfold push. rewrite bound_small; [reflexivity|].
  rewrite Hu in Hb. rewrite !length_app, !Nat.add_1_r in *. lia.
Qed.

(** X2.  In a log edited by [addOperation], [addOperations], [undo] and
    [redo], [undo()] returns exactly the last undo group: [operations] ends
    with that group, loses it, and the group moves to the redo stack, which
    drops nothing. *)
Theorem undo_returns_last_group (m : OperationStackManager)
    (r : list (list Operation)) (g : list Operation) :
  edited m -> undoStack m = r ++ [g] ->
  exists front,
    operations m = front ++ g /\
    fst (undo m) = Some g /\
    operations (snd (undo m)) = front /\
    undoStack (snd (undo m)) = r /\
    redoStack (snd (undo m)) = redoStack m ++ [g].
Proof.
  intros He Hu.
  destruct (edited_undo_step m r g He Hu) as (front & Ho & Hundo).
  exists front. rewrite Hundo. now repeat split.
Qed.

Lemma undo_returns_last_group_witness :
  exists front,
    operations Examples.mixed = front ++ [Examples.eyeSize5] /\
    fst (undo Examples.mixed) = Some [Examples.eyeSize5] /\
    operations (snd (undo Examples.mixed)) = front /\
    undoStack (snd (undo Examples.mixed)) = [[Examples.color1]] /\
    redoStack (snd (undo Examples.mixed))
      = redoStack Examples.mixed ++ [[Examples.eyeSize5]].
Proof.
  apply (undo_returns_last_group Examples.mixed [[Examples.color1]]
           [Examples.eyeSize5] edited_mixed).
  reflexivity.
Defined.

(** X3.  In such an edited log with something to undo, [undo()] followed
    by [redo()] gives back the whole manager: operations, undo stack and
    redo stack. *)
Theorem undo_redo_edited (m : OperationStackManager) :
  edited m -> undoStack m <> [] ->
  snd (redo (snd (undo m))) = m /\ fst (redo (snd (undo m))) = fst (undo m).
Proof.
  intros He Hne.
  destruct (pop_nonempty _ _ Hne) as (g & r & _ & Hu).
  destruct (edited_undo_step m r g He Hu) as (front & Ho & Hundo).
  rewrite Hundo. simpl.
  rewrite (redo_step _ (redoStack m) g) by reflexivity.
  simpl. unfold push_all, push. split; [|reflexivity].
  destruct m as [ops us rs]. simpl in *. now subst.
Qed.

Lemma undo_redo_edited_witness :
  snd (redo (snd (undo Examples.mixed))) = Examples.mixed.
Proof.
  apply (undo_redo_edited Examples.mixed edited_mixed). discriminate.
Defined.

(** X4.  In such an edited log with something to redo, [redo()] followed
    by [undo()] gives back the whole manager, and [undo()] returns the
    group [redo()] returned. *)
Theorem redo_undo_edited (m : OperationStackManager) :
  edited m -> redoStack m <> [] ->
  snd (undo (snd (redo m))) = m /\ fst (undo (snd (redo m))) = fst (redo m).
Proof.
  intros He Hne. pose proof (edited_bounded m He) as Hb.
  destruct (pop_nonempty _ _ Hne) as (g & r & _ & Hr).
  rewrite (redo_step m r g Hr). simpl.
  rewrite (undo_step _ (undoStack m) g) by reflexivity.
  cbn [operations undoStack redoStack]. unfold push_all. rewrite splice_suffix.
  unfold push. rewrite bound_small.
  - split; [|reflexivity]. destruct m as [ops us rs]. simpl in *. now subst.
  - rewrite Hr in Hb. rewrite !length_app, !Nat.add_1_r in *. lia.
Qed.

Lemma redo_undo_edited_witness :
  snd (undo (snd (redo Examples.mixed))) = Examples.mixed.
Proof.
  apply (redo_undo_edited Examples.mixed edited_mixed). discriminate.
Defined.

(** X5.  On any manager, a group added with [addOperations] is undone as
    one step: the next [undo()] returns the group, [operations] is what it
    was before the group was added, and the group alone waits on the redo
    stack. *)
Theorem undo_addOperations (m : OperationStackManager) (ops : list Operation) :
  fst (undo (addOperations ops m)) = Some ops /\
  operations (snd (undo (addOperations ops m))) = operations m /\
  redoStack (snd (undo (addOperations ops m))) = [ops] /\
  (forall op, fst (undo (addOperation op m)) = Some [op] /\
              operations (snd (undo (addOperation op m))) = operations m).
Proof.
  assert (G : forall g : list Operation,
            let m' := mkManager (push_all (operations m) g)
                        (bound (push (undoStack m) g)) [] in
            fst (undo m') = Some g /\
            operations (snd (undo m')) = operations m /\
            redoStack (snd (undo m')) = [g]).
  { intros g m'. destruct (bound_push (undoStack m) g) as [u' Hu'].
    rewrite (undo_step m' u' g Hu').
    change (operations m') with (operations m ++ g).
    rewrite splice_suffix. simpl. repeat split. }
  destruct (G ops) as (H1 & H2 & H3).
  split; [exact H1|]. split; [exact H2|]. split; [exact H3|].
  intros op. destruct (G [op]) as (K1 & K2 & _). split; [exact K1|exact K2].
Qed.

End HistoryFacts.

(* ================================================================== *)
(** * The operation log: editing by type *)
(* ================================================================== *)

Module ToolFacts.
Import Types JsArray OperationStack OperationStackExt.
Import TypesFacts JsArrayFacts OperationStackFacts.

Lemma filter_has_not_same (t : OpType) (l : list Operation) :
  filter (has_type t) (filter (not_type t) l) = [].
Proof.
  unfold has_type, not_type.
  induction l as [|o l IH]; simpl; [reflexivity|].
  destruct (type_eqb (op_type o) t) eqn:E; simpl; [exact IH|].
  now rewrite E.
Qed.

Lemma filter_has_not_other (t t' : OpType) (l : list Operation) :
  t' <> t ->
  filter (has_type t') (filter (not_type t) l) = filter (has_type t') l.
Proof.
  intros Hne. unfold has_type, not_type.
  induction l as [|o l IH]; simpl; [reflexivity|].
  destruct (type_eqb_spec (op_type o) t) as [E|E]; simpl.
  - destruct (type_eqb_spec (op_type o) t'); [congruence|exact IH].
  - now rewrite IH.
Qed.

Lemma filter_not_type_Forall (t : OpType) (l : list Operation) :
  Forall (fun o => op_type o <> t) (filter (not_type t) l).
Proof.
  apply Forall_forall. intros o Ho. apply filter_In in Ho.
  destruct Ho as [_ Ho]. unfold not_type in Ho.
  now destruct (type_eqb_spec (op_type o) t).
Qed.

(** X6.  After [replaceOperationsOfType(type, operation)] with an
    operation of that type, the operation is the only one of its type in
    the log; the operations of every other type are the ones that were
    there, in the same order; and the step can be undone at once, which
    removes the new operation but does not bring the replaced ones back. *)
Theorem replace_leaves_one (type : OpType) (operation : Operation)
    (m : OperationStackManager) :
  op_type operation = type ->
  getOperationsByType type (replaceOperationsOfType type operation m)
    = [operation] /\
  (forall t', t' <> type ->
     getOperationsByType t' (replaceOperationsOfType type operation m)
       = getOperationsByType t' m) /\
  operations (snd (undo (replaceOperationsOfType type operation m)))
    = filter (not_type type) (operations m).
Proof.
  intros Ht. unfold getOperationsByType. simpl. unfold push.
  split; [|split].
  - rewrite filter_app, filter_has_not_same. simpl.
    unfold has_type. now rewrite Ht, type_eqb_refl.
  - intros t' Hne. rewrite filter_app, (filter_has_not_other _ _ _ Hne). simpl.
    unfold has_type at 2. rewrite Ht.
    destruct (type_eqb_spec type t'); [congruence|apply app_nil_r].
  - rewrite (undo_step _ (undoStack m) [operation]) by reflexivity.
    change (operations (replaceOperationsOfType type operation m))
      with (filter (not_type type) (operations m) ++ [operation]).
    now rewrite splice_suffix.
Qed.

Lemma replace_leaves_one_witness :
  getOperationsByType faceParam
    (replaceOperationsOfType faceParam Examples.eyeSize8 Examples.mixed)
  = [Examples.eyeSize8].
Proof.
  apply (replace_leaves_one faceParam Examples.eyeSize8 Examples.mixed).
  reflexivity.
Defined.

(** X7.  After [resetTool(type)] no operation of that type is left, the
    operations of every other type are untouched and keep their order, and
    when something was removed the removed operations form the newest undo
    group. *)
Theorem resetTool_removes_type (toolType : OpType) (m : OperationStackManager) :
  getOperationsByType toolType (resetTool toolType m) = [] /\
  (forall t', t' <> toolType ->
     getOperationsByType t' (resetTool toolType m) = getOperationsByType t' m) /\
  operations (resetTool toolType m) = filter (not_type toolType) (operations m) /\
  (getOperationsByType toolType m <> [] ->
   undoStack (resetTool toolType m)
     = undoStack m ++ [getOperationsByType toolType m]).
Proof.
  unfold getOperationsByType, resetTool.
  destruct (filter (has_type toolType) (operations m)) as [|o l] eqn:E; simpl.
  - assert (Hid : filter (not_type toolType) (operations m) = operations m).
    { clear -E. induction (operations m) as [|a ops IH]; simpl in *; [reflexivity|].
      unfold not_type at 1. unfold has_type at 1 in E.
      destruct (type_eqb (op_type a) toolType); [discriminate|].
      simpl. now rewrite IH. }
    split; [exact E|]. split; [reflexivity|]. split; [now rewrite Hid|tauto].
  - split; [apply filter_has_not_same|]. split.
    + intros t' Hne. now apply filter_has_not_other.
    + split; reflexivity.
Qed.

(** X8.  Undo does not reverse a reset.  After a [resetTool(type)] that
    removed something, [undo()] brings none of the removed operations
    back: it takes a further trailing segment off the operations that were
    left (as many as were reset, when that many are left) and returns
    it. *)
Theorem undo_after_resetTool (toolType : OpType) (m : OperationStackManager) :
  getOperationsByType toolType m <> [] ->
  exists removed,
    fst (undo (resetTool toolType m)) = Some removed /\
    filter (not_type toolType) (operations m)
      = operations (snd (undo (resetTool toolType m))) ++ removed /\
    getOperationsByType toolType (snd (undo (resetTool toolType m))) = [] /\
    ((length (getOperationsByType toolType m)
        <= length (filter (not_type toolType) (operations m)))%nat ->
     length removed = length (getOperationsByType toolType m)).
Proof.
  intros Hne. unfold getOperationsByType in *.
  set (toolOps := filter (has_type toolType) (operations m)) in *.
  set (rest := filter (not_type toolType) (operations m)).
  assert (Hreset : resetTool toolType m
                   = mkManager rest (undoStack m ++ [toolOps]) []).
  { unfold resetTool. fold toolOps rest.
    destruct toolOps; [tauto|reflexivity]. }
  rewrite Hreset.
  rewrite (undo_step _ (undoStack m) toolOps) by reflexivity.
  cbn [operations].
  pose proof (splice_tail _ rest (length toolOps)) as Htail.
  assert (Hlen : (length toolOps <= length rest)%nat ->
                 fst (splice rest (Z.of_nat (length rest) - Z.of_nat (length toolOps))
                        (Z.of_nat (length toolOps)))
                 = skipn (length rest - length toolOps) rest).
  { intros Hle.
    rewrite <- (firstn_skipn (length rest - length toolOps) rest) at 1 2.
    replace (Z.of_nat (length toolOps))
      with (Z.of_nat (length (skipn (length rest - length toolOps) rest)))
      by (rewrite length_skipn; lia).
    now rewrite splice_suffix. }
  destruct (splice rest _ _) as [removed operations'] eqn:Es.
  exists removed. simpl. split; [reflexivity|]. split; [now rewrite Htail|].
  split.
  - assert (Hsub : filter (has_type toolType) (operations' ++ removed) = []).
    { rewrite Htail. apply filter_has_not_same. }
    rewrite filter_app in Hsub. now apply app_eq_nil in Hsub.
  - intros Hle. simpl in Hlen. rewrite (Hlen Hle), length_skipn. lia.
Qed.

Lemma undo_after_resetTool_witness :
  exists removed,
    fst (undo (resetTool color Examples.mixed)) = Some removed /\
    filter (not_type color) (operations Examples.mixed)
      = operations (snd (undo (resetTool color Examples.mixed))) ++ removed.
Proof.
  destruct (undo_after_resetTool color Examples.mixed) as (removed & H1 & H2 & _).
  - discriminate.
  - exists removed. split; [exact H1|exact H2].
Defined.

(** X9.  Undo does not reverse [clear()] either.  After clearing a log
    that held operations, [undo()] returns an empty list, [operations]
    stays empty and the redo stack holds one empty group, so a following
    [redo()] restores nothing. *)
Theorem undo_after_clear (m : OperationStackManager) :
  operations m <> [] ->
  undo (clear m) = (Some [], mkManager [] (undoStack m) [[]]) /\
  operations (snd (redo (snd (undo (clear m))))) = [].
Proof.
  intros Hne.
  assert (Hclear : clear m = mkManager [] (undoStack m ++ [operations m]) []).
  { unfold clear. destruct (operations m); [tauto|reflexivity]. }
  rewrite Hclear.
  rewrite (undo_step _ (undoStack m) (operations m)) by reflexivity.
  cbn [operations redoStack].
  pose proof (splice_tail _ (@nil Operation) (length (operations m))) as Htail.
  destruct (splice [] _ _) as [removed operations'] eqn:Es.
  apply app_eq_nil in Htail. destruct Htail as [-> ->].
  split; [reflexivity|]. reflexivity.
Qed.

Lemma undo_after_clear_witness :
  undo (clear Examples.mixed)
  = (Some [], mkManager [] (undoStack Examples.mixed) [[]]).
Proof.
  apply (undo_after_clear Examples.mixed). discriminate.
Defined.


(** X11.  [getLastOperationOfType] after an append: for the type of the
    appended operation it returns that operation, for every other type
    what it returned before. *)
Theorem getLast_after_add (op : Operation) (m : OperationStackManager)
    (t : OpType) :
  getLastOperationOfType t (addOperation op m) =
  if type_eqb (op_type op) t then Some op else getLastOperationOfType t m.
Proof.
  unfold getLastOperationOfType, getOperationsByType. simpl. unfold push.
  rewrite filter_app. simpl. unfold has_type at 2.
  destruct (type_eqb (op_type op) t).
  - change (filter (has_type t) (operations m) ++ [op])
      with (push (filter (has_type t) (operations m)) op).
    now rewrite pop_push.
  - now rewrite app_nil_r.
Qed.

End ToolFacts.

(* ================================================================== *)
(** * The operation log: [optimizeOperations], type by type *)
(* ================================================================== *)

Module OptimizeTypeFacts.
Import Types JsArray OperationStack OperationStackExt.
Import TypesFacts JsArrayFacts MapFacts OptimizeFacts.

Lemma filter_has_type_all (t : OpType) (l : list Operation) :
  Forall (fun o => op_type o = t) l -> filter (has_type t) l = l.
Proof.
  induction 1 as [|o l Ho _ IH]; simpl; [reflexivity|].
  unfold has_type at 1. now rewrite Ho, type_eqb_refl, IH.
Qed.

Lemma filter_has_type_none (t t' : OpType) (l : list Operation) :
  t' <> t -> Forall (fun o => op_type o = t') l -> filter (has_type t) l = [].
Proof.
  intros Hne. induction 1 as [|o l Ho _ IH]; simpl; [reflexivity|].
  unfold has_type at 1. rewrite Ho.
  destruct (type_eqb_spec t' t); [congruence|exact IH].
Qed.

(** The operations of one type after the pass are what the pass makes of
    the operations of that type before it. *)
Lemma optimize_by_type (t : OpType) (ops : list Operation) :
  filter (has_type t) (flat_map optimize_group (map_values (typeGroups ops)))
  = optimize_group (filter (has_type t) ops).
Proof.
  destruct (typeGroups_spec ops) as [Hnd Hget].
  unfold map_values. rewrite flat_map_concat_map, map_map, <- flat_map_concat_map.
  rewrite filter_flat_map.
  rewrite (flat_map_ext_in _ _ _
             (fun e => if type_eqb (fst e) t then optimize_group (snd e) else [])).
  - rewrite (flat_map_select type_eqb_spec optimize_group t _ Hnd), Hget.
    unfold group_of. now destruct (filter (has_type t) ops).
  - intros [t' l] Hin. simpl.
    destruct (typeGroups_entry _ _ _ Hin) as [Hl _].
    pose proof (filter_has_type_Forall t' ops) as Hall. rewrite <- Hl in Hall.
    pose proof (optimize_group_type _ _ Hall) as Hout.
    destruct (type_eqb_spec t' t) as [->|Hne].
    + now apply filter_has_type_all.
    + now apply (filter_has_type_none _ t').
Qed.

(** X12.  [optimizeOperations] leaves the magnifier, twirl, inpaint,
    background and transform operations as they are: for each of these
    types the operations after the pass are those before it, in the same
    order. *)
Theorem optimize_keeps_other_types (m : OperationStackManager) (t : OpType) :
  t = magnifier \/ t = twirl \/ t = inpaint \/ t = background \/ t = transform ->
  getOperationsByType t (optimizeOperations m) = getOperationsByType t m.
Proof.
  intros Ht. unfold getOperationsByType. simpl. rewrite optimize_by_type.
  pose proof (filter_has_type_Forall t (operations m)) as Hall.
  destruct (filter (has_type t) (operations m)) as [|o0 [|o1 l]];
    [reflexivity|reflexivity|].
  inversion Hall as [|? ? Ho _]; subst. unfold optimize_group.
  destruct Ht as [E|[E|[E|[E|E]]]]; now rewrite E.
Qed.

Lemma optimize_keeps_other_types_witness :
  getOperationsByType magnifier
    (optimizeOperations
       (append_all [Examples.magnifier1; Examples.color1; Examples.magnifier1]
          (new_manager [])))
  = [Examples.magnifier1; Examples.magnifier1].
Proof.
  apply (optimize_keeps_other_types
           (append_all [Examples.magnifier1; Examples.color1; Examples.magnifier1]
              (new_manager [])) magnifier).
  now left.
Defined.

(** X13.  Of the color operations [optimizeOperations] keeps the last one
    and nothing else. *)
Theorem optimize_color_last (m : OperationStackManager) :
  getOperationsByType color (optimizeOperations m)
  = opt_list (getLastOperationOfType color m).
Proof.
  unfold getLastOperationOfType, getOperationsByType. simpl.
  rewrite optimize_by_type.
  pose proof (filter_has_type_Forall color (operations m)) as Hall.
  destruct (filter (has_type color) (operations m)) as [|o0 [|o1 l]];
    [reflexivity|reflexivity|].
  inversion Hall as [|? ? Ho _]; subst. unfold optimize_group. rewrite Ho.
  now destruct (fst (pop (o0 :: o1 :: l))).
Qed.

(** X14.  Two or more liquify operations are merged by
    [optimizeOperations] into one that carries all their strokes, in
    order, and the freeze mask of the last of them; when none of them has
    a stroke they are all dropped, freeze masks included. *)
Theorem optimize_liquify_merge (m : OperationStackManager)
    (o0 o1 : Operation) (l : list Operation) :
  getOperationsByType liquify m = o0 :: o1 :: l ->
  getOperationsByType liquify (optimizeOperations m) =
  match flat_map op_strokes (o0 :: o1 :: l) with
  | [] => []
  | strokes => [Liquify strokes (op_freezeMaskUri (last (o1 :: l) o1))]
  end.
Proof.
  unfold getOperationsByType. simpl. rewrite optimize_by_type.
  intros H. rewrite H.
  pose proof (filter_has_type_Forall liquify (operations m)) as Hall.
  rewrite H in Hall.
  assert (Ho : op_type o0 = liquify) by now inversion Hall.
  unfold optimize_group. rewrite Ho.
  rewrite (filter_has_type_all _ _ Hall).
  assert (Hlast : fst (pop (o0 :: o1 :: l)) = Some (last (o1 :: l) o1)).
  { assert (Hne : o1 :: l <> []) by discriminate.
    destruct (exists_last Hne) as (front & x & Hx). rewrite Hx.
    rewrite last_last. change (o0 :: front ++ [x]) with (push (o0 :: front) x).
    now rewrite pop_push. }
  rewrite Hlast.
  change (op_strokes o0 ++ op_strokes o1 ++ flat_map op_strokes l)
    with (flat_map op_strokes (o0 :: o1 :: l)).
  change (match l with [] => o1 | _ :: _ => last l o1 end)
    with (last (o1 :: l) o1).
  now destruct (flat_map op_strokes (o0 :: o1 :: l)).
Qed.

Lemma optimize_liquify_merge_witness :
  getOperationsByType liquify
    (optimizeOperations
       (new_manager [MoreExamples.stroke_a; Examples.color1; MoreExamples.stroke_b;
                     MoreExamples.mask_only]))
  = [Liquify [MoreExamples.stroke1; MoreExamples.stroke2] (Some "mask2"%string)] /\
  getOperationsByType liquify
    (optimizeOperations
       (new_manager [MoreExamples.mask_only; MoreExamples.mask_only]))
  = [].
Proof.
  split.
  - apply (optimize_liquify_merge
             (new_manager [MoreExamples.stroke_a; Examples.color1;
                           MoreExamples.stroke_b; MoreExamples.mask_only])
             MoreExamples.stroke_a MoreExamples.stroke_b [MoreExamples.mask_only]).
    reflexivity.
  - apply (optimize_liquify_merge
             (new_manager [MoreExamples.mask_only; MoreExamples.mask_only])
             MoreExamples.mask_only MoreExamples.mask_only []).
    reflexivity.
Defined.

End OptimizeTypeFacts.

(* ================================================================== *)
(** * The operation log: [optimizeOperations] run twice *)
(* ================================================================== *)

Module OptimizeIdemFacts.
Import Types JsArray OperationStack OperationStackExt.
Import TypesFacts JsArrayFacts MapFacts OptimizeFacts OptimizeTypeFacts.

Section MapMore.
Variables (K V : Type) (eqb : K -> K -> bool).
Hypothesis eqb_spec : forall a b, reflect (a = b) (eqb a b).

Lemma map_set_new (k : K) (v : V) (m : list (K * V)) :
  map_get eqb k m = None -> map_set eqb k v m = m ++ [(k, v)].
Proof.
  induction m as [|[k0 v0] rest IH]; simpl; [reflexivity|].
  destruct (eqb_spec k0 k); [discriminate|]. intros H. now rewrite IH.
Qed.

Lemma map_set_same (k : K) (v : V) (m : list (K * V)) :
  map_get eqb k m = Some v -> map_set eqb k v m = m.
Proof.
  induction m as [|[k0 v0] rest IH]; simpl; [discriminate|].
  destruct (eqb_spec k0 k); intros H.
  - now injection H as ->.
  - now rewrite IH.
Qed.

Lemma map_set_set (k : K) (v v' : V) (m : list (K * V)) :
  map_set eqb k v' (map_set eqb k v m) = map_set eqb k v' m.
Proof.
  induction m as [|[k0 v0] rest IH]; simpl.
  - now destruct (eqb_spec k k).
  - destruct (eqb_spec k0 k) as [->|Hne]; simpl.
    + now destruct (eqb_spec k k).
    + destruct (eqb_spec k0 k); [tauto|]. now rewrite IH.
Qed.

Lemma map_get_app (k : K) (m1 m2 : list (K * V)) :
  map_get eqb k (m1 ++ m2) =
  match map_get eqb k m1 with
  | Some v => Some v
  | None => map_get eqb k m2
  end.
Proof.
  induction m1 as [|[k0 v0] rest IH]; simpl; [reflexivity|].
  now destruct (eqb k0 k).
Qed.

End MapMore.

Arguments map_set_new {K V eqb} eqb_spec k v m _.
Arguments map_set_same {K V eqb} eqb_spec k v m _.
Arguments map_set_set {K V eqb} eqb_spec k v v' m.
Arguments map_get_app {K V} eqb k m1 m2.

(** *** Grouping a list that is already grouped *)

Lemma group_fold_same (t : OpType) (l : list Operation) :
  Forall (fun o => op_type o = t) l ->
  forall acc x,
    map_get type_eqb t acc = Some x ->
    fold_left group_step l acc = map_set type_eqb t (x ++ l) acc.
Proof.
  induction 1 as [|o l Ho _ IH]; intros acc x Hx; simpl.
  - rewrite app_nil_r. symmetry. now apply (map_set_same type_eqb_spec).
  - rewrite group_step_set, Ho, Hx.
    rewrite (IH _ (x ++ [o])).
    + rewrite (map_set_set type_eqb_spec), <- app_assoc. reflexivity.
    + now rewrite (map_get_set type_eqb_spec), type_eqb_refl.
Qed.

Lemma group_fold_block (t : OpType) (o : Operation) (l : list Operation)
    (acc : list (OpType * list Operation)) :
  Forall (fun o => op_type o = t) (o :: l) ->
  map_get type_eqb t acc = None ->
  fold_left group_step (o :: l) acc = acc ++ [(t, o :: l)].
Proof.
  intros Hall Hnone. inversion Hall as [|? ? Ho Hl]; subst. simpl.
  rewrite group_step_set, Hnone.
  rewrite (group_fold_same _ _ Hl _ [o]).
  - rewrite (map_set_set type_eqb_spec).
    now apply (map_set_new type_eqb_spec).
  - now rewrite (map_get_set type_eqb_spec), type_eqb_refl.
Qed.

Lemma typeGroups_blocks (bs : list (OpType * list Operation)) :
  NoDup (map fst bs) -> Forall is_block bs ->
  forall acc,
    (forall t, In t (map fst bs) -> map_get type_eqb t acc = None) ->
    fold_left group_step (flat_map snd bs) acc = acc ++ bs.
Proof.
  induction bs as [|[t l] bs IH]; intros Hnd Hall acc Hacc; simpl.
  - now rewrite app_nil_r.
  - inversion Hnd as [|? ? Hnotin Hnd']; subst.
    inversion Hall as [|? ? [Hne Hty] Hall']; subst. simpl in Hne, Hty.
    rewrite fold_left_app.
    destruct l as [|o l]; [tauto|].
    rewrite (group_fold_block _ _ _ _ Hty) by (apply Hacc; now left).
    rewrite (IH Hnd' Hall').
    + now rewrite <- app_assoc.
    + intros t' Ht'. rewrite map_get_app, (Hacc t') by now right.
      simpl. destruct (type_eqb_spec t t'); [congruence|reflexivity].
Qed.

(** *** The per-key map of a list that is already coalesced *)

Lemma param_fold_fresh (ty : OpType) :
  is_param_type ty ->
  forall pm2 pm1 : list (string * Operation),
    NoDup (map fst (pm1 ++ pm2)) ->
    Forall (fun e => op_key (snd e) = Some (fst e) /\ op_type (snd e) = ty) pm2 ->
    fold_left param_step (map snd pm2) pm1 = pm1 ++ pm2.
Proof.
  intros Hty. induction pm2 as [|[k o] pm2 IH]; intros pm1 Hnd Hall; simpl.
  - now rewrite app_nil_r.
  - inversion Hall as [|? ? [Hk Ht] Hall']; subst. simpl in Hk.
    rewrite (param_step_set _ _ o k Hty eq_refl Hk).
    rewrite map_app in Hnd. simpl in Hnd.
    pose proof (NoDup_remove_2 _ _ _ Hnd) as Hnotin.
    rewrite (map_set_new String.eqb_spec).
    + rewrite IH; [now rewrite <- app_assoc| |exact Hall'].
      rewrite <- app_assoc, map_app. exact Hnd.
    + apply (map_get_none_keys String.eqb_spec). intros Hin.
      apply Hnotin, in_or_app. now left.
Qed.

Lemma paramMap_values_fix (ty : OpType) (l : list Operation) :
  is_param_type ty -> Forall (fun o => op_type o = ty) l ->
  paramMap (map_values (paramMap l)) = paramMap l.
Proof.
  intros Hty Hall. destruct (paramMap_spec _ _ Hty Hall) as [Hnd _].
  unfold map_values. unfold paramMap at 1.
  rewrite (param_fold_fresh _ Hty (paramMap l) []); [reflexivity|exact Hnd|].
  apply Forall_forall. intros [k o] Hin.
  destruct (paramMap_entry _ _ _ _ Hty Hall Hin) as [_ Hp].
  apply is_param_true in Hp. simpl. tauto.
Qed.

(** What a group contributes is not changed by a second pass. *)
Lemma optimize_group_idem (t : OpType) (l : list Operation) :
  Forall (fun o => op_type o = t) l ->
  optimize_group (optimize_group l) = optimize_group l.
Proof.
  intros Hall. destruct l as [|o0 [|o1 rest]]; [reflexivity|reflexivity|].
  assert (H0 : op_type o0 = t) by now inversion Hall.
  assert (Hparam : is_param_type t ->
            optimize_group (optimize_group (o0 :: o1 :: rest))
            = optimize_group (o0 :: o1 :: rest)).
  { intros Hty.
    rewrite (optimize_group_param _ _ Hty Hall).
    assert (Hvs : Forall (fun o => op_type o = t)
                    (map_values (paramMap (o0 :: o1 :: rest)))).
    { rewrite <- (optimize_group_param _ _ Hty Hall).
      now apply optimize_group_type. }
    rewrite (optimize_group_param _ _ Hty Hvs).
    now rewrite (paramMap_values_fix _ _ Hty Hall). }
  destruct t; try (apply Hparam; unfold is_param_type; tauto);
    unfold optimize_group at 2 3; rewrite H0; cbv iota.
  - destruct (0 <? _)%nat; [|reflexivity]. now destruct (fst (pop _)).
  - unfold optimize_group. now rewrite H0.
  - unfold optimize_group. now rewrite H0.
  - unfold optimize_group. now rewrite H0.
  - unfold optimize_group. now rewrite H0.
  - unfold optimize_group. now rewrite H0.
  - now destruct (fst (pop _)).
Qed.

(** *** The groups of the output *)

Lemma out_blocks_concat (G : list (OpType * list Operation)) :
  flat_map snd (out_blocks G) = flat_map optimize_group (map_values G).
Proof.
  unfold out_blocks, map_values.
  induction G as [|[t l] G IH]; simpl; [reflexivity|].
  destruct (optimize_group l) eqn:E; simpl; now rewrite IH.
Qed.

Lemma out_blocks_keys (G : list (OpType * list Operation)) (t : OpType) :
  In t (map fst (out_blocks G)) -> In t (map fst G).
Proof.
  unfold out_blocks. induction G as [|[t0 l] G IH]; simpl; [tauto|].
  destruct (0 <? _)%nat; simpl; tauto.
Qed.

Lemma out_blocks_NoDup (G : list (OpType * list Operation)) :
  NoDup (map fst G) -> NoDup (map fst (out_blocks G)).
Proof.
  induction G as [|[t0 l] G IH]; intros Hnd; [constructor|].
  inversion Hnd as [|? ? Hnotin Hnd']; subst.
  unfold out_blocks. simpl. fold (out_blocks G).
  destruct (0 <? _)%nat; simpl; [|now apply IH].
  constructor; [|now apply IH].
  intros Hin. apply Hnotin. now apply out_blocks_keys.
Qed.

Lemma out_blocks_are_blocks (ops : list Operation) :
  Forall is_block (out_blocks (typeGroups ops)) /\
  Forall (fun b => optimize_group (snd b) = snd b) (out_blocks (typeGroups ops)).
Proof.
  assert (H : forall G : list (OpType * list Operation),
             (forall t l, In (t, l) G -> Forall (fun o => op_type o = t) l) ->
             Forall is_block (out_blocks G) /\
             Forall (fun b => optimize_group (snd b) = snd b) (out_blocks G)).
  { induction G as [|[t l] G IH]; intros HG; [split; constructor|].
    destruct IH as [IH1 IH2]; [intros t' l' Hin; apply HG; now right|].
    assert (Hl : Forall (fun o => op_type o = t) l) by (apply HG; now left).
    unfold out_blocks. simpl. fold (out_blocks G).
    destruct (optimize_group l) as [|o out] eqn:E; simpl; [now split|].
    split; constructor; trivial.
    - unfold is_block. cbn [fst snd]. split; [discriminate|].
      rewrite <- E. now apply optimize_group_type.
    - cbn [fst snd]. rewrite <- E. now apply (optimize_group_idem _ _ Hl). }
  apply H. intros t l Hin. destruct (typeGroups_entry _ _ _ Hin) as [-> _].
  apply filter_has_type_Forall.
Qed.

(** X15.  [optimizeOperations] is idempotent: a second pass right after
    the first changes nothing. *)
Theorem optimize_idempotent (m : OperationStackManager) :
  optimizeOperations (optimizeOperations m) = optimizeOperations m.
Proof.
  unfold optimizeOperations. simpl. f_equal.
  set (G := typeGroups (operations m)).
  destruct (typeGroups_spec (operations m)) as [Hnd _]. fold G in Hnd.
  destruct (out_blocks_are_blocks (operations m)) as [Hblk Hfix]. fold G in Hblk, Hfix.
  rewrite <- (out_blocks_concat G).
  unfold typeGroups at 1.
  rewrite (typeGroups_blocks _ (out_blocks_NoDup G Hnd) Hblk []) by reflexivity.
  simpl. unfold map_values.
  rewrite flat_map_concat_map, map_map, <- flat_map_concat_map.
  apply flat_map_ext_in. intros b Hb.
  rewrite Forall_forall in Hfix. now apply Hfix.
Qed.

End OptimizeIdemFacts.

(* ================================================================== *)
(** * The geometry mapper: export radius, export centre, equal ratios *)
(* ================================================================== *)

Module GeometryMoreFacts.
Import Geometry GeometryFacts.
Import Lqa.
Local Open Scope Q_scope.

(** X16.  With the fit rectangle of a positive image extent in positive
    view bounds, the two axis scales [exportJPEG] takes the larger of are
    equal, so the export radius is the view radius divided by the fit
    scale: scaled back by the fit scale it is the view radius again. *)
Theorem export_radius_scale (extent bounds : CGSize) (radiusPx : Q) :
  0 < width extent -> 0 < height extent ->
  0 < width bounds -> 0 < height bounds ->
  let fit := aspectFitRect extent bounds in
  let s := Qmin (width bounds / width extent) (height bounds / height extent) in
  width extent / width (size fit) == height extent / height (size fit) /\
  exportJPEG_radiusInImage extent fit radiusPx == radiusPx / s /\
  exportJPEG_radiusInImage extent fit radiusPx * s == radiusPx.
Proof.
  intros Hew Heh Hbw Hbh fit s.
  destruct extent as [ew eh], bounds as [bw bh]. simpl in *.
  pose proof (fit_scale_pos ew eh bw bh Hew Heh Hbw Hbh) as Hs. fold s in Hs.
  unfold exportJPEG_radiusInImage, fit, aspectFitRect. simpl. fold s.
  clearbody s.
  assert (Ex : ew / (ew * s) == 1 / s) by (field; split; lra).
  assert (Ey : eh / (eh * s) == 1 / s) by (field; split; lra).
  rewrite Ex, Ey, Q.max_id.
  split; [reflexivity|]. split; field; lra.
Qed.

Lemma export_radius_scale_witness :
  exportJPEG_radiusInImage Examples.photo
    (aspectFitRect Examples.photo Examples.screen) 50
  * Qmin (390 / 4000) (844 / 3000) == 50.
Proof.
  apply (export_radius_scale Examples.photo Examples.screen 50); reflexivity.
Defined.

(** X17.  When the centre, flipped to the bottom-left origin, lies in the
    fit rectangle, the centre [exportJPEG] hands to the filter lies in the
    image: between 0 and the extent in both directions. *)
Theorem export_center_in_image (extent bounds : CGSize) (centerPx : CGPoint) :
  0 < width extent -> 0 < height extent ->
  0 < width bounds -> 0 < height bounds ->
  let fit := aspectFitRect extent bounds in
  x (origin fit) <= x centerPx <= x (origin fit) + width (size fit) ->
  y (origin fit) <= height bounds - y centerPx
                 <= y (origin fit) + height (size fit) ->
  let c := exportJPEG_ciCenter extent fit (height bounds) centerPx in
  0 <= x c <= width extent /\ 0 <= y c <= height extent.
Proof.
  intros Hew Heh Hbw Hbh fit Hx Hy c.
  destruct extent as [ew eh], bounds as [bw bh], centerPx as [cx cy].
  simpl in *.
  pose proof (fit_scale_pos ew eh bw bh Hew Heh Hbw Hbh) as Hs.
  unfold c, exportJPEG_ciCenter, fit, aspectFitRect in *. simpl in *.
  set (s := Qmin (bw / ew) (bh / eh)) in *. clearbody s.
  set (ox := (bw - ew * s) / 2) in *. set (oy := (bh - eh * s) / 2) in *.
  clearbody ox oy.
  assert (Ex : (cx - ox) * (ew / (ew * s)) == (cx - ox) / s) by (field; split; lra).
  assert (Ey : (bh - cy - oy) * (eh / (eh * s)) == (bh - cy - oy) / s)
    by (field; split; lra).
  rewrite Ex, Ey.
  assert (Hdiv : forall a b, 0 <= a <= b * s -> 0 <= a / s <= b).
  { intros a b [Ha Hb]. split.
    - apply Qle_shift_div_l; [exact Hs|lra].
    - apply Qle_shift_div_r; [exact Hs|exact Hb]. }
  split; apply Hdiv; lra.
Qed.

Lemma export_center_in_image_witness :
  0 <= x (exportJPEG_ciCenter Examples.photo
            (aspectFitRect Examples.photo Examples.screen) 844
            (mkCGPoint 100 400)) <= 4000.
Proof.
  apply (export_center_in_image Examples.photo Examples.screen
           (mkCGPoint 100 400)); try reflexivity; split; discriminate.
Defined.

(** X18.  An image whose aspect ratio is that of the container is fitted
    onto the whole container: [aspectFitRect] returns the origin (0, 0)
    and the size of the container. *)
Theorem aspect_fit_same_ratio (iw ih cw ch : Q) :
  0 < iw -> 0 < ih -> 0 < cw -> 0 < ch ->
  cw * ih == ch * iw ->
  rect_eq (aspectFitRect (mkSize iw ih) (mkSize cw ch))
          (mkRect (mkCGPoint 0 0) (mkSize cw ch)).
Proof.
  intros Hiw Hih Hcw Hch Hratio.
  assert (Er : cw / iw == ch / ih).
  { apply (Qmult_inj_r _ _ (iw * ih)); [|field_simplify; lra].
    intros E. assert (0 < iw * ih) by (apply Qmult_lt_0_compat; trivial). lra. }
  unfold aspectFitRect, rect_eq, point_eq, size_eq. simpl.
  assert (Es : Qmin (cw / iw) (ch / ih) == cw / iw).
  { rewrite <- Er. apply Q.min_id. }
  rewrite Es.
  assert (Ew : iw * (cw / iw) == cw) by (field; lra).
  assert (Eh : ih * (cw / iw) == ch) by (rewrite Er; field; lra).
  rewrite Ew, Eh.
  repeat split; try reflexivity; field.
Qed.

Lemma aspect_fit_same_ratio_witness :
  rect_eq (aspectFitRect (mkSize 1920 1080) (mkSize 640 360))
          (mkRect (mkCGPoint 0 0) (mkSize 640 360)).
Proof.
  apply (aspect_fit_same_ratio 1920 1080 640 360); reflexivity.
Defined.

End GeometryMoreFacts.

(* ================================================================== *)
(** * The pinch/bulge shader: how far a sample can move *)
(* ================================================================== *)

Module ShaderMoreFacts.
Import Shader ShaderFacts.
Import Lra.
Local Open Scope R_scope.

Lemma Rabs_bound (a r : R) : Rabs a <= r -> - r <= a <= r.
Proof.
  intros H. pose proof (Rle_abs a) as H1. pose proof (Rle_abs (- a)) as H2.
  rewrite Rabs_Ropp in H2. lra.
Qed.

Lemma vlength_nonneg (v : vec2) : 0 <= vlength v.
Proof. unfold vlength. apply sqrt_pos. Qed.

Lemma vlength_scale (v : vec2) (k : R) :
  vlength (vscale v k) = Rabs k * vlength v.
Proof.
  unfold vlength, vscale. simpl.
  replace (vx v * k * (vx v * k) + vy v * k * (vy v * k))
    with (Rsqr k * (vx v * vx v + vy v * vy v)) by (unfold Rsqr; ring).
  rewrite sqrt_mult.
  - now rewrite sqrt_Rsqr_abs.
  - apply Rle_0_sqr.
  - pose proof (Rle_0_sqr (vx v)). pose proof (Rle_0_sqr (vy v)).
    unfold Rsqr in *. lra.
Qed.

Lemma vx_le_vlength (v : vec2) : Rabs (vx v) <= vlength v.
Proof.
  unfold vlength. rewrite <- sqrt_Rsqr_abs. apply sqrt_le_1_alt.
  pose proof (Rle_0_sqr (vy v)). unfold Rsqr in *. lra.
Qed.

Lemma vy_le_vlength (v : vec2) : Rabs (vy v) <= vlength v.
Proof.
  unfold vlength. rewrite <- sqrt_Rsqr_abs. apply sqrt_le_1_alt.
  pose proof (Rle_0_sqr (vx v)). unfold Rsqr in *. lra.
Qed.

(** The factor by which the offset from the centre is scaled. *)
Lemma bulge_offset (center : vec2) (radius strength : R) (p : vec2) :
  vlength (vsub p center) < radius ->
  vsub (bulge_coord center radius strength p) center =
  vscale (vsub p center)
    (1 + bulge_amount strength (vlength (vsub p center) / radius)).
Proof.
  intros H. rewrite (bulge_inside center radius strength p H).
  unfold vsub, vadd, vscale. simpl. apply vec2_eq; ring.
Qed.

Lemma bulge_factor_bounds (strength t : R) :
  -1 <= strength <= 1 -> 0 <= t < 1 ->
  0 <= 1 + bulge_amount strength t /\
  t * (1 + bulge_amount strength t) <= 1 /\
  (strength <= 0 -> 1 + bulge_amount strength t <= 1).
Proof.
  intros Hs Ht. unfold bulge_amount.
  destruct (Rlt_dec 0 strength) as [Hpos|Hneg].
  - assert (H1 : 0 <= (1 - t) * (1 - t)) by nra.
    assert (H2 : 0 <= (1 - t) * (1 - t) * strength) by nra.
    split; [lra|]. split; [|lra].
    assert (H3 : (1 - t) * (1 - t) * strength <= (1 - t) * (1 - t)) by nra.
    assert (H4 : t * (1 + (1 - t) * (1 - t)) <= 1).
    { assert (0 <= (1 - t) * (1 - t + t * t)) by nra. nra. }
    nra.
  - assert (Habs : 0 <= Rabs strength <= 1).
    { split; [apply Rabs_pos|]. apply Rabs_le. lra. }
    assert (H1 : 0 <= 1 - t * t <= 1) by nra.
    assert (H2 : 0 <= (1 - t * t) * Rabs strength <= 1) by nra.
    split; [lra|]. split; [nra|]. intros _. lra.
Qed.

(** Inside the circle the distance of the sample from the centre is the
    distance of the pixel times a factor that is bounded. *)
Lemma bulge_offset_length (center : vec2) (radius strength : R) (p : vec2) :
  vlength (vsub p center) < radius ->
  -1 <= strength <= 1 ->
  exists k,
    vlength (vsub (bulge_coord center radius strength p) center)
      = k * vlength (vsub p center) /\
    0 <= k /\ k * vlength (vsub p center) <= radius /\
    (strength <= 0 -> k <= 1).
Proof.
  intros Hin Hs.
  pose proof (vlength_nonneg (vsub p center)) as Hd.
  assert (Hr : 0 < radius) by lra.
  set (D := vlength (vsub p center)) in *.
  assert (Ht : 0 <= D / radius < 1).
  { split.
    - apply Rmult_le_pos; [exact Hd|]. left. now apply Rinv_0_lt_compat.
    - apply (Rmult_lt_reg_r radius); [exact Hr|].
      unfold Rdiv. rewrite Rmult_assoc, Rinv_l by lra. lra. }
  destruct (bulge_factor_bounds strength (D / radius) Hs Ht) as (F0 & F1 & F2).
  exists (1 + bulge_amount strength (D / radius)).
  rewrite (bulge_offset center radius strength p Hin), vlength_scale.
  fold D. rewrite Rabs_pos_eq by exact F0.
  set (k := 1 + bulge_amount strength (D / radius)) in *.
  split; [reflexivity|]. split; [exact F0|]. split; [|exact F2].
  assert (E : k * D = radius * (D / radius * k)) by (field; lra).
  rewrite E. apply Rle_trans with (radius * 1); [|lra].
  apply Rmult_le_compat_l; lra.
Qed.

(** X20.  With a strength between -1 and 1, a pixel inside the circle is
    sampled inside the circle: the sample is no farther from the centre
    than the radius, and for a strength that is not positive no farther
    than the pixel itself. *)
Theorem bulge_sample_in_circle (center : vec2) (radius strength : R) (p : vec2) :
  vlength (vsub p center) < radius ->
  -1 <= strength <= 1 ->
  vlength (vsub (bulge_coord center radius strength p) center) <= radius /\
  (strength <= 0 ->
   vlength (vsub (bulge_coord center radius strength p) center)
   <= vlength (vsub p center)).
Proof.
  intros Hin Hs.
  destruct (bulge_offset_length center radius strength p Hin Hs)
    as (k & -> & Hk0 & Hkr & Hk1).
  split; [exact Hkr|]. intros Hneg. specialize (Hk1 Hneg).
  pose proof (vlength_nonneg (vsub p center)) as Hd.
  apply Rle_trans with (1 * vlength (vsub p center)); [|lra].
  apply Rmult_le_compat_r; lra.
Qed.

Lemma bulge_sample_in_circle_witness :
  vlength (vsub (bulge_coord (mkVec2 0 0) 2 1 (mkVec2 1 0)) (mkVec2 0 0)) <= 2.
Proof.
  apply (bulge_sample_in_circle (mkVec2 0 0) 2 1 (mkVec2 1 0)).
  - unfold vsub. simpl. replace (1 - 0) with 1 by lra. replace (0 - 0) with 0 by lra.
    rewrite vlength_horizontal, Rabs_pos_eq; lra.
  - lra.
Defined.

(** X21.  When the circle lies inside the surface and the strength is
    between -1 and 1, every pixel of the surface is sampled inside the
    surface: the texture coordinate the shader computes stays between 0
    and the resolution in both directions. *)
Theorem bulge_sample_in_surface (center : vec2) (radius strength : R)
    (resolution p : vec2) :
  radius <= vx center <= vx resolution - radius ->
  radius <= vy center <= vy resolution - radius ->
  -1 <= strength <= 1 ->
  0 <= vx p <= vx resolution -> 0 <= vy p <= vy resolution ->
  0 <= vx (bulge_coord center radius strength p) <= vx resolution /\
  0 <= vy (bulge_coord center radius strength p) <= vy resolution.
Proof.
  intros Hcx Hcy Hs Hpx Hpy.
  destruct (Rlt_dec (vlength (vsub p center)) radius) as [Hin|Hout].
  - destruct (bulge_offset_length center radius strength p Hin Hs)
      as (k & Hlen & _ & Hc & _).
    rewrite <- Hlen in Hc.
    set (q := bulge_coord center radius strength p) in *.
    pose proof (vx_le_vlength (vsub q center)) as Hx.
    pose proof (vy_le_vlength (vsub q center)) as Hy.
    change (vx (vsub q center)) with (vx q - vx center) in Hx.
    change (vy (vsub q center)) with (vy q - vy center) in Hy.
    assert (Hx' : Rabs (vx q - vx center) <= radius) by lra.
    assert (Hy' : Rabs (vy q - vy center) <= radius) by lra.
    apply Rabs_bound in Hx'. apply Rabs_bound in Hy'. lra.
  - rewrite bulge_outside by lra. tauto.
Qed.

Lemma bulge_sample_in_surface_witness :
  0 <= vx (bulge_coord Examples.middle 80 (1 / 2) Examples.pixel) <= 200 /\
  0 <= vy (bulge_coord Examples.middle 80 (1 / 2) Examples.pixel) <= 200.
Proof.
  apply (bulge_sample_in_surface Examples.middle 80 (1 / 2) Examples.surface
           Examples.pixel); simpl; lra.
Defined.

(** X22.  The shader leaves a pixel alone, sampling the texture at the
    pixel's own coordinate, in three cases: the pixel is at or beyond the
    radius, the strength is zero, or the pixel is the centre itself. *)
Theorem bulge_no_displacement (vec4 : Type) (image : vec2 -> vec4)
    (center : vec2) (radius strength : R) (resolution uv : vec2) :
  vx resolution <> 0 -> vy resolution <> 0 ->
  radius <= vlength (vsub (vmul uv resolution) center) \/
  strength = 0 \/ vmul uv resolution = center ->
  bulge_coord center radius strength (vmul uv resolution) = vmul uv resolution /\
  bulge_main image center radius strength resolution uv = image uv.
Proof.
  intros Hrx Hry Hcase.
  assert (Hcoord : bulge_coord center radius strength (vmul uv resolution)
                   = vmul uv resolution).
  { destruct Hcase as [Hout|[Hzero|Hcentre]].
    - now apply bulge_outside.
    - unfold bulge_coord.
      destruct (Rlt_dec _ radius); [|reflexivity].
      unfold bulge_amount. subst strength.
      destruct (Rlt_dec 0 0); [lra|]. rewrite Rabs_R0.
      destruct (vmul uv resolution) as [a b]. unfold vsub, vscale. simpl.
      apply vec2_eq; ring.
    - unfold bulge_coord. rewrite Hcentre.
      destruct (Rlt_dec _ radius); [|reflexivity].
      destruct center as [a b]. unfold vsub, vscale. simpl.
      apply vec2_eq; ring. }
  split; [exact Hcoord|].
  unfold bulge_main. rewrite Hcoord. f_equal.
  destruct uv as [u v], resolution as [w h]. unfold vdiv, vmul. simpl in *.
  apply vec2_eq; field; assumption.
Qed.

Lemma bulge_no_displacement_witness :
  bulge_coord Examples.middle 80 0
    (vmul (mkVec2 (7 / 10) (1 / 2)) Examples.surface)
  = vmul (mkVec2 (7 / 10) (1 / 2)) Examples.surface.
Proof.
  apply (bulge_no_displacement vec2 (fun texCoord : vec2 => texCoord)
           Examples.middle 80 0 Examples.surface (mkVec2 (7 / 10) (1 / 2))).
  - simpl. lra.
  - simpl. lra.
  - right. left. reflexivity.
Defined.

End ShaderMoreFacts.

(* ================================================================== *)
(** * The magnifier gesture: where the circle can be dragged *)
(* ================================================================== *)

Module GestureFacts.
Import Geometry MagnifierGesture.
Import Lqa.
Local Open Scope Q_scope.

Lemma clamp_between (lo hi v : Q) :
  lo <= hi ->
  lo <= Qmax lo (Qmin hi v) <= hi /\
  (lo <= v <= hi -> Qmax lo (Qmin hi v) == v).
Proof.
  intros Hle. split.
  - split; [apply Q.le_max_l|].
    apply Q.max_lub; [exact Hle|apply Q.le_min_l].
  - intros [H1 H2]. rewrite (Q.min_r hi v H2). now apply Q.max_r.
Qed.

(** X23.  The drag handler keeps the radius of the first render, 80,
    whatever the slider has set.  On a canvas at least 160 wide and high a
    drag leaves the centre of the circle at least 80 from every edge, and a
    touch that is already there is taken as it is.  So the circle as it is
    drawn, with the slider's radius, stays wholly inside the canvas when
    that radius is at most 80, the slider's minimum 30 included; with a
    larger radius, the slider's maximum 150 included, a drag towards the
    top-left corner leaves it sticking out on the left and at the top. *)
Theorem pan_clamps_to_initial_radius
    (width height : Z) (locationX locationY radius : Q) :
  (160 <= width)%Z -> (160 <= height)%Z ->
  let c := onPanResponderMove width height locationX locationY in
  (80 <= x c <= inject_Z width - 80 /\ 80 <= y c <= inject_Z height - 80) /\
  (80 <= locationX <= inject_Z width - 80 ->
   80 <= locationY <= inject_Z height - 80 ->
   point_eq c (mkCGPoint locationX locationY)) /\
  (0 <= radius <= 80 -> circle_inside width height radius c) /\
  (80 < radius ->
   locationX <= 80 -> locationY <= 80 ->
   x c - radius < 0 /\ y c - radius < 0 /\
   ~ circle_inside width height radius c) /\
  (0 <= minimumRadius <= 80 /\ 80 < maximumRadius).
Proof.
  intros Hw Hh c.
  assert (Hwq : 160 <= inject_Z width)
    by (change 160 with (inject_Z 160); now rewrite <- Zle_Qle).
  assert (Hhq : 160 <= inject_Z height)
    by (change 160 with (inject_Z 160); now rewrite <- Zle_Qle).
  unfold c, onPanResponderMove, circle_inside, point_eq, initialRadius.
  cbn [x y].
  destruct (clamp_between 80 (inject_Z width - 80) locationX)
    as [[X1 X2] X3]; [lra|].
  destruct (clamp_between 80 (inject_Z height - 80) locationY)
    as [[Y1 Y2] Y3]; [lra|].
  split; [repeat split; assumption|].
  split; [intros Hx Hy; split; [now apply X3|now apply Y3]|].
  split; [|split; [|split; [split|]; reflexivity || discriminate]].
  - intros [Hr0 Hr]. repeat split; lra.
  - intros Hr Hx Hy.
    assert (Ex : Qmax 80 (Qmin (inject_Z width - 80) locationX) == 80).
    { apply Q.max_l. apply Qle_trans with locationX; [apply Q.le_min_r|exact Hx]. }
    assert (Ey : Qmax 80 (Qmin (inject_Z height - 80) locationY) == 80).
    { apply Q.max_l. apply Qle_trans with locationY; [apply Q.le_min_r|exact Hy]. }
    split; [lra|]. split; [lra|].
    intros (H1 & _). lra.
Qed.

Lemma pan_clamps_to_initial_radius_witness :
  circle_inside 390 594 30 (onPanResponderMove 390 594 1000 (-5)) /\
  ~ circle_inside 390 594 150 (onPanResponderMove 390 594 10 20).
Proof.
  split.
  - apply (pan_clamps_to_initial_radius 390 594 1000 (-5) 30);
      [discriminate|discriminate|split; discriminate].
  - apply (pan_clamps_to_initial_radius 390 594 10 20 150);
      [discriminate|discriminate|reflexivity|discriminate|discriminate].
Defined.

End GestureFacts.

(* ================================================================== *)
(** * The session index: what a save leaves in it *)
(* ================================================================== *)

Module SessionIndexFacts.
Import JsArray SessionIndex JsArrayFacts.

(** Splicing out a middle segment. *)
Lemma splice_middle (A : Type) (a b c : list A) :
  splice (a ++ b ++ c) (Z.of_nat (length a)) (Z.of_nat (length b))
  = (b, a ++ c).
Proof.
  unfold splice.
  set (len := Z.of_nat (length (a ++ b ++ c))).
  assert (Hlen : len = (Z.of_nat (length a) + Z.of_nat (length b)
                        + Z.of_nat (length c))%Z).
  { unfold len. rewrite !length_app. lia. }
  destruct (Z.ltb_spec (Z.of_nat (length a)) 0); [lia|].
  assert (Hs : Z.to_nat (Z.min (Z.of_nat (length a)) len) = length a) by lia.
  rewrite Hs.
  assert (Hd : Z.to_nat (Z.min (Z.max (Z.of_nat (length b)) 0)
                 (len - Z.min (Z.of_nat (length a)) len)) = length b) by lia.
  rewrite Hd.
  rewrite skipn_app, skipn_all, Nat.sub_diag. simpl.
  rewrite firstn_app, firstn_all, Nat.sub_diag. simpl. rewrite app_nil_r.
  rewrite firstn_app, firstn_all, Nat.sub_diag. simpl. rewrite app_nil_r.
  f_equal. f_equal.
  rewrite app_assoc, skipn_app, length_app, Nat.sub_diag. simpl.
  rewrite skipn_all2 by (rewrite length_app; lia). reflexivity.
Qed.

(** [indexOf] finds the first occurrence. *)
Lemma indexOf_spec (id : string) (ids : list string) :
  (~ In id ids /\ indexOf id ids = (-1)%Z) \/
  (exists pre post,
     ids = pre ++ id :: post /\ ~ In id pre /\
     indexOf id ids = Z.of_nat (length pre)).
Proof.
  induction ids as [|x rest IH]; simpl.
  - left. tauto.
  - destruct (String.eqb_spec x id) as [->|Hne].
    + right. exists [], rest. repeat split. tauto.
    + destruct IH as [[Hnot Hi]|(pre & post & Hr & Hpre & Hi)].
      * left. rewrite Hi. simpl. split; [|reflexivity]. intros [E|E]; tauto.
      * right. exists (x :: pre), post. rewrite Hi, Hr.
        destruct (Z.ltb_spec (Z.of_nat (length pre)) 0); [lia|].
        split; [reflexivity|]. split.
        -- intros [E|E]; [congruence|tauto].
        -- simpl length. lia.
Qed.

(** The array before the truncation: the id in front of the stored ids
    without its first occurrence. *)
Lemma unshifted_spec (id : string) (ids : list string) :
  exists rest,
    (if (-1 <? indexOf id ids)%Z
     then snd (splice ids (indexOf id ids) 1) else ids) = rest /\
    (forall x, In x (id :: rest) <-> x = id \/ In x ids) /\
    (NoDup ids -> NoDup (id :: rest)) /\
    (length rest <= length ids)%nat.
Proof.
  destruct (indexOf_spec id ids) as [[Hnot Hi]|(pre & post & Hr & Hpre & Hi)].
  - exists ids. rewrite Hi. simpl. split; [reflexivity|]. split; [|split].
    + intros x. simpl. intuition congruence.
    + intros Hnd. now constructor.
    + lia.
  - exists (pre ++ post). rewrite Hi.
    destruct (Z.ltb_spec (-1) (Z.of_nat (length pre))); [|lia].
    split.
    + rewrite Hr. change (id :: post) with ([id] ++ post).
      change 1%Z with (Z.of_nat (length [id])). now rewrite splice_middle.
    + split; [|split].
      * intros x. rewrite Hr. simpl. rewrite !in_app_iff. simpl.
        intuition congruence.
      * rewrite Hr. intros Hnd. constructor.
        -- now apply NoDup_remove_2 in Hnd.
        -- now apply NoDup_remove_1 in Hnd.
      * rewrite Hr, !length_app. simpl. lia.
Qed.

(** X24.  What [updateSessionsIndex] writes back: the saved id comes
    first; the index holds at most 50 ids; the index and the ids handed to
    [deleteSession] are together exactly the saved id and the ids stored
    before; nothing is handed over while fewer than 50 ids were stored;
    and when the stored ids were distinct, the index and the deleted ids
    are distinct too and the saved id is not among the deleted ones. *)
Theorem index_after_save (id : string) (stored : option (list string)) :
  let old := match stored with Some ids => ids | None => [] end in
  let ids := fst (updateSessionsIndex id stored) in
  let deleted := snd (updateSessionsIndex id stored) in
  hd_error ids = Some id /\
  (length ids <= 50)%nat /\
  (forall x, In x (ids ++ deleted) <-> x = id \/ In x old) /\
  ((length old < 50)%nat -> deleted = []) /\
  (NoDup old -> NoDup (ids ++ deleted) /\ ~ In id deleted).
Proof.
  intros old ids deleted. unfold ids, deleted, updateSessionsIndex. fold old.
  destruct (unshifted_spec id old) as (rest & -> & Hin & Hnd & Hlen).
  unfold HISTORY_LIMIT.
  destruct (Nat.ltb_spec 50 (length (id :: rest))) as [Hbig|Hsmall];
    cbn [fst snd].
  - split; [reflexivity|]. split; [rewrite length_firstn; lia|].
    rewrite firstn_skipn. split; [exact Hin|]. split; [simpl in Hbig; lia|].
    intros Hold. specialize (Hnd Hold). split; [exact Hnd|].
    intros Hdel. inversion Hnd as [|? ? Hnotin _]; subst.
    apply Hnotin. change (skipn 50 (id :: rest)) with (skipn 49 rest) in Hdel.
    rewrite <- (firstn_skipn 49 rest). apply in_or_app. now right.
  - split; [reflexivity|]. split; [exact Hsmall|].
    rewrite app_nil_r. split; [exact Hin|]. split; [reflexivity|].
    intros Hold. split; [now apply Hnd|tauto].
Qed.

Lemma index_after_save_witness :
  NoDup (fst (updateSessionsIndex MoreExamples.saved_id
                (Some MoreExamples.stored_ids))
         ++ snd (updateSessionsIndex MoreExamples.saved_id
                   (Some MoreExamples.stored_ids))) /\
  hd_error (fst (updateSessionsIndex MoreExamples.saved_id
                   (Some MoreExamples.stored_ids)))
  = Some MoreExamples.saved_id.
Proof.
  split; [|reflexivity].
  apply (index_after_save MoreExamples.saved_id (Some MoreExamples.stored_ids)).
  repeat constructor; simpl; intuition discriminate.
Defined.

End SessionIndexFacts.

(* ================================================================== *)
(** * The first editor screen: undo and redo buttons *)
(* ================================================================== *)

Module EditorScreenFacts.
Import Types JsArray EditorScreen JsArrayFacts.

Lemma handleUndo_in_sync (ops0 : list Operation) (st : EditorState) :
  in_sync ops0 st -> in_sync ops0 (handleUndo st).
Proof.
  intros (ops & Hs & Hops & Hu & Hr & Hg). unfold handleUndo. rewrite Hs.
  destruct ops as [|o ops'] eqn:E.
  - simpl. exists []. now repeat split.
  - change (length (o :: ops') =? 0)%nat with false. cbv iota.
    assert (Hne : o :: ops' <> []) by discriminate.
    destruct (pop_nonempty _ _ Hne) as (lastOp & front & Hpop & Hfront).
    rewrite Hpop. exists front. simpl. split; [reflexivity|]. split.
    + rewrite rev_app_distr. simpl. rewrite <- Hops, Hfront.
      now rewrite <- app_assoc.
    + split; [reflexivity|]. split.
      * rewrite length_app. simpl. now rewrite Nat.add_1_r.
      * apply Forall_app. split; [exact Hg|]. now repeat constructor.
Qed.

Lemma handleRedo_in_sync (ops0 : list Operation) (st : EditorState) :
  in_sync ops0 st -> in_sync ops0 (handleRedo st).
Proof.
  intros (ops & Hs & Hops & Hu & Hr & Hg). unfold handleRedo.
  destruct (redoStack st) as [|g0 r0] eqn:E.
  - simpl. exists ops. rewrite E. now repeat split.
  - change (length (g0 :: r0) =? 0)%nat with false. cbv iota. rewrite Hs.
    assert (Hne : g0 :: r0 <> []) by discriminate.
    destruct (pop_nonempty _ _ Hne) as (g & r & Hpop & Hfront).
    rewrite Hpop. exists (ops ++ g). simpl.
    rewrite Hfront in Hg, Hops. apply Forall_app in Hg. destruct Hg as [Hg1 Hg2].
    inversion Hg2 as [|? ? Hlen _]; subst.
    split; [reflexivity|]. split.
    + rewrite rev_app_distr. simpl. now rewrite app_assoc.
    + split; [|split; [reflexivity|exact Hg1]].
      rewrite length_app, Hlen, Nat.add_1_r. reflexivity.
Qed.

(** X25.  Whatever sequence of Undo and Redo presses follows the opening
    of a session, no operation is lost or reordered (the operations
    followed by the redo groups, newest first, are the operations the
    session was opened with), the Undo button is enabled exactly when an
    operation is left and the Redo button exactly when a group waits. *)
Theorem buttons_in_sync (ops0 : list Operation) (st : EditorState) :
  pressed ops0 st ->
  exists ops,
    session_ops st = Some ops /\
    ops ++ concat (rev (redoStack st)) = ops0 /\
    canUndo st = (0 <? length ops)%nat /\
    canRedo st = (0 <? length (redoStack st))%nat.
Proof.
  intros H.
  assert (Hsync : in_sync ops0 st).
  { induction H as [|st _ IH|st _ IH].
    - exists ops0. simpl. rewrite app_nil_r. now repeat split.
    - now apply handleUndo_in_sync.
    - now apply handleRedo_in_sync. }
  destruct Hsync as (ops & H1 & H2 & H3 & H4 & _).
  exists ops. now repeat split.
Qed.

Lemma buttons_in_sync_witness :
  exists ops,
    session_ops (handleRedo (handleUndo (handleUndo
       (initialized [Examples.color1; Examples.eyeSize5])))) = Some ops /\
    ops ++ concat (rev (redoStack (handleRedo (handleUndo (handleUndo
       (initialized [Examples.color1; Examples.eyeSize5]))))))
    = [Examples.color1; Examples.eyeSize5].
Proof.
  destruct (buttons_in_sync [Examples.color1; Examples.eyeSize5]
              (handleRedo (handleUndo (handleUndo
                 (initialized [Examples.color1; Examples.eyeSize5])))))
    as (ops & H1 & H2 & _).
  - apply pressed_redo, pressed_undo, pressed_undo, pressed_init.
  - exists ops. split; assumption.
Defined.

End EditorScreenFacts.

(* ================================================================== *)
(** * Regions of interest and confidences: what they guarantee *)
(* ================================================================== *)

Module DetectionFacts.
Import Types Detection.
Import Lqa.
Local Open Scope Q_scope.

Lemma Math_min_le (vs : list Q) (v : Q) :
  Math_min v vs <= v /\ forall x, In x vs -> Math_min v vs <= x.
Proof.
  unfold Math_min. revert v. induction vs as [|a vs IH]; intros v; simpl.
  - split; [apply Qle_refl|tauto].
  - destruct (IH (Qmin v a)) as [H1 H2]. split.
    + eapply Qle_trans; [exact H1|apply Q.le_min_l].
    + intros x [<-|Hx]; [|now apply H2].
      eapply Qle_trans; [exact H1|apply Q.le_min_r].
Qed.

Lemma Math_max_ge (vs : list Q) (v : Q) :
  v <= Math_max v vs /\ forall x, In x vs -> x <= Math_max v vs.
Proof.
  unfold Math_max. revert v. induction vs as [|a vs IH]; intros v; simpl.
  - split; [apply Qle_refl|tauto].
  - destruct (IH (Qmax v a)) as [H1 H2]. split.
    + eapply Qle_trans; [apply Q.le_max_l|exact H1].
    + intros x [<-|Hx]; [|now apply H2].
      eapply Qle_trans; [apply Q.le_max_r|exact H1].
Qed.

Lemma min_max_bounds (f : Point -> Q) (p : Point) (ps : list Point) (q : Point) :
  In q (p :: ps) ->
  Math_min (f p) (map f ps) <= f q <= Math_max (f p) (map f ps).
Proof.
  destruct (Math_min_le (map f ps) (f p)) as [L1 L2].
  destruct (Math_max_ge (map f ps) (f p)) as [U1 U2].
  intros [<-|Hq]; [split; assumption|].
  split; [apply L2|apply U2]; now apply in_map.
Qed.

(** X26.  The face region, when [generateROIsFromDetections] returns one,
    comes from a non-empty jawline and is its bounding box: every jawline
    point lies between the left and the right edge and between the top
    and the bottom edge. *)
Theorem face_roi_contains_jawline (d : Detections) (r : ROI) :
  face (generateROIsFromDetections d) = Some r ->
  exists lm jaw,
    landmarks d = Some lm /\ jawline lm = Some jaw /\ jaw <> [] /\
    forall q, In q jaw ->
      roi_x r <= px q <= roi_x r + roi_width r /\
      roi_y r <= py q <= roi_y r + roi_height r.
Proof.
  unfold generateROIsFromDetections. simpl.
  destruct (landmarks d) as [lm|]; [|discriminate].
  destruct (jawline lm) as [[|p ps]|] eqn:Hj; try discriminate.
  intros H. injection H as <-. exists lm, (p :: ps).
  split; [reflexivity|]. split; [exact Hj|]. split; [discriminate|].
  intros q Hq. simpl.
  assert (Hbox : forall lo hi v : Q, lo <= v <= hi -> lo <= v <= lo + (hi - lo))
    by (intros lo hi v Hv; lra).
  split; apply Hbox.
  - exact (min_max_bounds px p ps q Hq).
  - exact (min_max_bounds py p ps q Hq).
Qed.

Lemma face_roi_contains_jawline_witness :
  exists lm jaw,
    landmarks DetectionExamples.detected = Some lm /\ jawline lm = Some jaw /\
    jaw <> [] /\
    forall q, In q jaw ->
      roi_x DetectionExamples.face_box <= px q
        <= roi_x DetectionExamples.face_box + roi_width DetectionExamples.face_box /\
      roi_y DetectionExamples.face_box <= py q
        <= roi_y DetectionExamples.face_box + roi_height DetectionExamples.face_box.
Proof.
  apply (face_roi_contains_jawline DetectionExamples.detected DetectionExamples.face_box).
  reflexivity.
Defined.

(** X27.  With both hips detected, the waist, belly and hips regions are
    all returned, each centred horizontally on the midpoint of the hips,
    and nested: the belly region lies within the waist region, which lies
    within the hips region, from left to right. *)
Theorem hip_rois_nested (d : Detections) (p : PosePoints) (l r : Point) :
  pose d = Some p -> leftHip p = Some l -> rightHip p = Some r ->
  exists wm b h,
    waistMid (generateROIsFromDetections d) = Some wm /\
    belly (generateROIsFromDetections d) = Some b /\
    hips (generateROIsFromDetections d) = Some h /\
    (roi_x wm + roi_width wm / 2 == (px l + px r) / 2 /\
     roi_x b + roi_width b / 2 == (px l + px r) / 2 /\
     roi_x h + roi_width h / 2 == (px l + px r) / 2) /\
    (roi_x h <= roi_x wm /\ roi_x wm <= roi_x b /\
     roi_x b + roi_width b <= roi_x wm + roi_width wm /\
     roi_x wm + roi_width wm <= roi_x h + roi_width h) /\
    roi_width wm == Qabs (px r - px l).
Proof.
  intros Hp Hl Hr. unfold generateROIsFromDetections.
  cbn [waistMid belly hips]. rewrite Hp, Hl, Hr. do 3 eexists.
  split; [reflexivity|]. split; [reflexivity|]. split; [reflexivity|].
  cbn [roi_x roi_y roi_width roi_height].
  pose proof (Qabs_nonneg (px r - px l)) as Hw.
  set (w := Qabs (px r - px l)) in *. clearbody w.
  set (c := (px l + px r) / 2). clearbody c.
  split; [repeat split; field|]. split; [repeat split; lra|reflexivity].
Qed.

Lemma hip_rois_nested_witness :
  exists wm b h,
    waistMid (generateROIsFromDetections DetectionExamples.detected) = Some wm /\
    belly (generateROIsFromDetections DetectionExamples.detected) = Some b /\
    hips (generateROIsFromDetections DetectionExamples.detected) = Some h /\
    roi_x h <= roi_x wm /\ roi_x wm <= roi_x b.
Proof.
  destruct (hip_rois_nested DetectionExamples.detected DetectionExamples.stub_pose
              (mkPoint 100 400) (mkPoint 300 400))
    as (wm & b & h & H1 & H2 & H3 & _ & (N1 & N2 & _) & _);
    try reflexivity.
  exists wm, b, h. repeat split; assumption.
Defined.

Lemma below_false (c : option number) (limit : Q) :
  below c limit = false <->
  match c with Some v => v == 0 \/ limit <= v | None => True end.
Proof.
  unfold below. destruct c as [v|]; [|tauto].
  destruct (Qeq_bool v 0) eqn:E0; simpl.
  - apply Qeq_bool_iff in E0. tauto.
  - destruct (Qle_bool limit v) eqn:E1; simpl.
    + apply Qle_bool_iff in E1. tauto.
    + split; [discriminate|]. intros [H|H].
      * apply Qeq_bool_iff in H. congruence.
      * apply Qle_bool_iff in H. congruence.
Qed.

(** X28.  [validateDetectionConfidence] reports a valid detection exactly
    when the landmarks hold at least one key and the face confidence is
    unset, zero, or at least 0.7; the pose confidence never decides; and
    an invalid detection always comes with at least one warning. *)
Theorem validation_spec (d : Detections) :
  (isValid (validateDetectionConfidence d) = true <->
   (exists lm, landmarks d = Some lm /\ key_count lm <> 0%nat) /\
   face_passes d) /\
  (isValid (validateDetectionConfidence d) = false ->
   warnings (validateDetectionConfidence d) <> []).
Proof.
  unfold validateDetectionConfidence, face_passes.
  set (fc := match confidences d with Some c => conf_face c | None => None end).
  set (pc := match confidences d with Some c => conf_pose c | None => None end).
  assert (Hf : below fc (7 # 10) = false <->
               match confidences d with
               | Some c => match conf_face c with
                           | Some v => v == 0 \/ 7 # 10 <= v
                           | None => True
                           end
               | None => True
               end).
  { rewrite below_false. unfold fc. destruct (confidences d); tauto. }
  destruct (below fc (7 # 10)) eqn:Ef;
    destruct (below pc (6 # 10)) eqn:Ep;
    destruct (landmarks d) as [lm|] eqn:El; simpl;
    try destruct (Nat.eqb_spec (key_count lm) 0) as [Ek|Ek]; simpl;
    (split; [split|]);
    try discriminate;
    try (intros [(lm' & Hlm & Hk) Hface]; try discriminate;
         try (injection Hlm as <-; tauto);
         apply Hf in Hface; discriminate);
    try (intros _; split; [exists lm; split; [reflexivity|exact Ek]|now apply Hf]);
    try (intros _; now destruct (@nil Warning)).
Qed.

End DetectionFacts.

(* ================================================================== *)
(** * The type of an image file: only the last extension counts *)
(* ================================================================== *)

Module ImageTypeFacts.
Import Ascii JsArray ImageType JsArrayFacts.

Lemma split_nonempty (sep : ascii) (s : string) : split sep s <> [].
Proof.
  destruct s as [|c rest]; simpl; [discriminate|].
  destruct (Ascii.eqb c sep); [discriminate|].
  destruct (split sep rest); discriminate.
Qed.

Lemma split_append (sep : ascii) (a b : string) :
  split sep (String.append a (String sep b)) = split sep a ++ split sep b.
Proof.
  induction a as [|c a IH]; simpl.
  - now rewrite Ascii.eqb_refl.
  - destruct (Ascii.eqb c sep); [now rewrite IH|].
    rewrite IH. pose proof (split_nonempty sep a) as Hne.
    destruct (split sep a) as [|seg segs]; [tauto|reflexivity].
Qed.

Lemma split_dotless (s : string) :
  dotless s = true -> split "." s = [s].
Proof.
  induction s as [|c rest IH]; simpl; [reflexivity|].
  destruct (Ascii.eqb c "."); simpl; [discriminate|].
  intros H. now rewrite (IH H).
Qed.

(** X29.  [getImageType] looks at nothing but the text after the last
    dot, lower-cased: a uri that ends in a dot and a dot-free extension
    has the type of that extension, whatever precedes it, and a uri
    without any dot is taken whole as its own extension. *)
Theorem image_type_by_last_extension (base ext : string) :
  dotless ext = true ->
  getImageType (String.append base (String "." ext))
    = kind_of (toLowerCase ext) /\
  getImageType ext = kind_of (toLowerCase ext).
Proof.
  intros Hext. unfold getImageType.
  rewrite split_append, (split_dotless ext Hext).
  change (split "." base ++ [ext]) with (push (split "." base) ext).
  rewrite pop_push. split; reflexivity.
Qed.

Lemma image_type_by_last_extension_witness :
  getImageType "file:///photos/IMG.0001.JPG" = jpeg /\
  getImageType "heic" = heic.
Proof.
  split.
  - apply (proj1 (image_type_by_last_extension "file:///photos/IMG.0001" "JPG"
                    eq_refl)).
  - apply (proj2 (image_type_by_last_extension "" "heic" eq_refl)).
Defined.

End ImageTypeFacts.

(* ================================================================== *)
(** * The operation log: [optimizeOperations] never grows the log *)
(* ================================================================== *)

Module OptimizeSizeFacts.
Import Types JsArray OperationStack OperationStackExt.
Import TypesFacts JsArrayFacts MapFacts OptimizeFacts.

Section MapSize.
Variables (K V : Type) (eqb : K -> K -> bool).

Lemma map_set_length (k : K) (v : V) (m : list (K * V)) :
  (length (map_set eqb k v m) <= S (length m))%nat.
Proof.
  induction m as [|[k0 v0] rest IH]; simpl; [lia|].
  destruct (eqb k0 k); simpl; lia.
Qed.

End MapSize.

(** Adding one operation to the groups adds one element in all. *)
Lemma group_step_total (G : list (OpType * list Operation)) (op : Operation) :
  length (flat_map snd (group_step G op)) = S (length (flat_map snd G)).
Proof.
  rewrite group_step_set. set (t := op_type op).
  induction G as [|[t0 l0] rest IH]; simpl.
  - reflexivity.
  - destruct (type_eqb t0 t) eqn:E; simpl.
    + rewrite !length_app. simpl. lia.
    + rewrite !length_app, IH. lia.
Qed.

Lemma typeGroups_total (ops : list Operation) :
  length (flat_map snd (typeGroups ops)) = length ops.
Proof.
  unfold typeGroups. induction ops as [|op ops IH] using rev_ind; [reflexivity|].
  rewrite fold_left_app. simpl.
  rewrite group_step_total, IH, length_app. simpl. lia.
Qed.

Lemma paramMap_length (l : list Operation) :
  (length (paramMap l) <= length l)%nat.
Proof.
  unfold paramMap. induction l as [|op l IH] using rev_ind; [simpl; lia|].
  rewrite fold_left_app, length_app. simpl.
  assert (H : (length (param_step (fold_left param_step l []) op)
               <= S (length (fold_left param_step l [])))%nat).
  { unfold param_step.
    destruct (op_type op); destruct (op_key op); try lia;
      apply map_set_length. }
  lia.
Qed.

Lemma optimize_group_length (l : list Operation) :
  (length (optimize_group l) <= length l)%nat.
Proof.
  destruct l as [|o0 [|o1 rest]]; [simpl; lia|simpl; lia|].
  unfold optimize_group.
  destruct (op_type o0); try lia.
  - destruct (0 <? _)%nat; [|simpl; lia].
    destruct (fst (pop _)); simpl; lia.
  - unfold map_values. rewrite length_map. apply paramMap_length.
  - unfold map_values. rewrite length_map. apply paramMap_length.
  - destruct (fst (pop _)); simpl; lia.
Qed.

(** What a group contributes is taken from the group, except for the
    merged liquify operation. *)
Lemma optimize_group_from (t : OpType) (l : list Operation) (o : Operation) :
  Forall (fun x => op_type x = t) l ->
  In o (optimize_group l) -> In o l \/ t = liquify.
Proof.
  intros Hall Hin. destruct l as [|o0 [|o1 rest]]; [tauto|now left|].
  assert (H0 : op_type o0 = t) by now inversion Hall.
  remember (o0 :: o1 :: rest) as l eqn:El.
  unfold optimize_group in Hin. rewrite El in Hin at 1. cbv iota in Hin.
  assert (Hparam : is_param_type t -> In o (map_values (paramMap l)) -> In o l).
  { intros Hty Hv. unfold map_values in Hv. apply in_map_iff in Hv.
    destruct Hv as [[k o'] [<- Hk]].
    now destruct (paramMap_entry _ _ _ _ Hty Hall Hk). }
  assert (Hlast : In o (match fst (pop l) with Some x => [x] | None => [] end)
                  -> In o l).
  { destruct (fst (pop l)) as [x|] eqn:E; simpl; [|tauto].
    intros [<-|[]]. now apply last_of_in. }
  rewrite H0 in Hin.
  destruct t; try (left; exact Hin); try (now right).
  - left. apply Hparam; [now left|exact Hin].
  - left. apply Hparam; [now right|exact Hin].
  - left. now apply Hlast.
Qed.

(** X30.  [optimizeOperations] never grows the log and invents nothing
    but the merged liquify operation: the log after the pass is no longer
    than before, and every operation in it that is not a liquify
    operation was in the log before the pass. *)
Theorem optimize_never_grows (m : OperationStackManager) :
  (length (operations (optimizeOperations m)) <= length (operations m))%nat /\
  (forall o, In o (operations (optimizeOperations m)) ->
             op_type o <> liquify -> In o (operations m)).
Proof.
  simpl. split.
  - rewrite <- (typeGroups_total (operations m)). unfold map_values.
    induction (typeGroups (operations m)) as [|[t l] G IH]; simpl; [lia|].
    rewrite !length_app. pose proof (optimize_group_length l). lia.
  - intros o Hin Hnl. unfold map_values in Hin.
    apply in_flat_map in Hin. destruct Hin as (l & Hl & Ho).
    apply in_map_iff in Hl. destruct Hl as ([t l'] & <- & Hentry). simpl in Ho.
    destruct (typeGroups_entry _ _ _ Hentry) as [Hfilter _].
    pose proof (filter_has_type_Forall t (operations m)) as Hall.
    rewrite <- Hfilter in Hall.
    pose proof (optimize_group_type _ _ Hall) as Hout.
    rewrite Forall_forall in Hout. specialize (Hout o Ho).
    destruct (optimize_group_from _ _ _ Hall Ho) as [Hol|Ht]; [|congruence].
    rewrite Hfilter in Hol. now apply filter_In in Hol.
Qed.

End OptimizeSizeFacts.
